(** * kombat-indexed-db: the message store and the reactive mirror

    A shallow embedding of [src/index.ts] (the durable adapter
    [LocalIndexedDB] with its projectors) and of [src/store.ts] (the
    proxy layer [DBProxy] / [DatasetProxy] / [RowProxy] over the
    in-memory mirror), followed by the properties the specification
    states about them.

    Conventions of the embedding.

    - A JavaScript value is a [JsValue]: the primitives, opaque
      functions and plain objects.  Numbers are integers; the code
      never computes with them.
    - A plain object is the list of its own properties in creation
      order (JavaScript lists keys that are array indices ahead of the
      others; nothing below depends on where a key stands).  Dataset
      names, row ids and column names are taken not to be names of
      [Object.prototype] members, so [o[k]] and [k in o] are
      own-property operations; [RowProxy.get], whose comment singles out
      inherited members, is the one place that looks past the own
      properties.
    - An IndexedDB object store is the list of its records in ascending
      key order; string keys compare lexicographically by code unit.
    - The requests of one IndexedDB transaction are executed in the
      order in which they were placed, and an [await] on a request
      resumes once that request has been answered.
    - [SyncDB.send] is the boundary of the store: a call of it is
      recorded with its batch and with the mirror as it stood at the
      call.  The pending set, [settle] and [close] are not embedded. *)

From Stdlib Require Import String Ascii List ZArith Bool Arith Lia.
From Stdlib Require Import OrdersEx OrdersFacts RelationClasses.
From Stdlib Require Import DecimalString.
Import ListNotations.
Set Warnings "-register-all".

Module StringOrder := OrderedTypeFacts String_as_OT.
Open Scope string_scope.
Open Scope list_scope.

(** ** JavaScript values *)

Inductive JsValue : Type :=
| Undefined
| Null
| Boolean (b : bool)
| Number (n : Z)
| Str (s : string)
| Function (name : string)
| Object (props : list (string * JsValue)).

(** A plain object: its own properties, oldest first. *)
Definition obj : Type := list (string * JsValue).

Section Properties.
Context {V : Type}.

(** The own property [k] of [o], if any. *)
Fixpoint lookup (k : string) (o : list (string * V)) : option V :=
  match o with
  | [] => None
  | (k', v) :: o' => if String.eqb k k' then Some v else lookup k o'
  end.

(** [o[k] = v]: an existing property keeps its place, a new one goes
    last. *)
Fixpoint assign (k : string) (v : V) (o : list (string * V))
  : list (string * V) :=
  match o with
  | [] => [(k, v)]
  | (k', v') :: o' =>
      if String.eqb k k' then (k, v) :: o' else (k', v') :: assign k v o'
  end.

(** [delete o[k]]. *)
Fixpoint remove (k : string) (o : list (string * V)) : list (string * V) :=
  match o with
  | [] => []
  | (k', v') :: o' =>
      if String.eqb k k' then o' else (k', v') :: remove k o'
  end.

(** [Object.keys(o)]. *)
Definition keys (o : list (string * V)) : list string := map fst o.

(** [k in o]. *)
Definition has_own (k : string) (o : list (string * V)) : bool :=
  match lookup k o with Some _ => true | None => false end.

(** [{ ...o, ...extra }] once [o] has been copied. *)
Definition spread (o extra : list (string * V)) : list (string * V) :=
  fold_left (fun acc kv => assign (fst kv) (snd kv) acc) extra o.
End Properties.

(** [o[k]] read as a value: a missing property reads [undefined]. *)
Definition prop (o : obj) (k : string) : JsValue :=
  match lookup k o with Some v => v | None => Undefined end.

Inductive JsType : Type :=
| TUndefined | TObject | TBoolean | TNumber | TString | TFunction.

Definition typeof (v : JsValue) : JsType :=
  match v with
  | Undefined => TUndefined
  | Null => TObject
  | Boolean _ => TBoolean
  | Number _ => TNumber
  | Str _ => TString
  | Function _ => TFunction
  | Object _ => TObject
  end.

Definition typeName (t : JsType) : string :=
  match t with
  | TUndefined => "undefined"
  | TObject => "object"
  | TBoolean => "boolean"
  | TNumber => "number"
  | TString => "string"
  | TFunction => "function"
  end.

(** The value in a condition: [if (v)], [!v]. *)
Definition truthy (v : JsValue) : bool :=
  match v with
  | Undefined | Null => false
  | Boolean b => b
  | Number n => negb (Z.eqb n 0)
  | Str s => negb (String.eqb s EmptyString)
  | Function _ | Object _ => true
  end.

(** A name between double quotes, as the error messages show it. *)
Definition quoted (s : string) : string :=
  let q := String (ascii_of_nat 34) EmptyString in (q ++ s ++ q)%string.

(** The value inside a template literal. *)
Definition toText (v : JsValue) : string :=
  match v with
  | Undefined => "undefined"
  | Null => "null"
  | Boolean true => "true"
  | Boolean false => "false"
  | Number n => NilZero.string_of_int (Z.to_int n)
  | Str s => s
  | Function name => name
  | Object _ => "[object Object]"
  end.

(** [isPrimitive] of store.ts. *)
Definition isPrimitive (v : JsValue) : bool :=
  match typeof v with
  | TObject => match v with Null => true | _ => false end
  | TFunction => false
  | _ => true
  end.

(** [dequal(a, b)]: primitives by identity; objects when every own
    property of [a] is an own property of [b] with a deep-equal value
    and both have as many properties. *)
Fixpoint dequal (a b : JsValue) {struct a} : bool :=
  match a, b with
  | Undefined, Undefined => true
  | Null, Null => true
  | Boolean x, Boolean y => Bool.eqb x y
  | Number x, Number y => Z.eqb x y
  | Str x, Str y => String.eqb x y
  | Function f, Function g => String.eqb f g
  | Object pa, Object pb =>
      (fix every (l : list (string * JsValue)) : bool :=
         match l with
         | [] => true
         | (k, v) :: l' =>
             match lookup k pb with
             | Some w => dequal v w
             | None => false
             end && every l'
         end) pa
      && Nat.eqb (length (keys pb)) (length pa)
  | _, _ => false
  end.

(** [structuredClone(v)]: a deep copy; a function anywhere inside makes
    it fail ([None], a DataCloneError). *)
Fixpoint structuredClone (v : JsValue) : option JsValue :=
  match v with
  | Function _ => None
  | Object ps =>
      option_map Object
        ((fix copy (l : list (string * JsValue)) : option obj :=
            match l with
            | [] => Some []
            | (k, x) :: l' =>
                match structuredClone x, copy l' with
                | Some x', Some r => Some ((k, x') :: r)
                | _, _ => None
                end
            end) ps)
  | _ => Some v
  end.

(** What a call does: it returns or it throws.  A trap that touches the
    store hands back the store as the call left it as well. *)
Inductive exn : Type :=
| TypeError (message : string)
| Error (message : string)
| DataCloneError.

Inductive result (A : Type) : Type :=
| Ok (a : A)
| Throw (e : exn).
Arguments Ok {A} a.
Arguments Throw {A} e.

(** ** Messages *)

Record Message : Type := mkMessage {
  timestamp : string;
  dataset : string;
  row : string;
  column : string;
  value : JsValue
}.

(** A column write on its way to [SyncDB.send], which stamps it. *)
Record Outgoing : Type := mkOutgoing {
  out_dataset : string;
  out_row : string;
  out_column : string;
  out_value : JsValue
}.

Definition latestMessageKey (msg : Message) : string :=
  (dataset msg ++ ":" ++ row msg ++ ":" ++ column msg)%string.

(** Changes: dataset, then row id, then column mapped to value. *)
Definition Changes : Type := list (string * list (string * obj)).

(** ** IndexedDB object stores *)

Module Idb.

(** The order of string keys, and of strings under [<]. *)
Definition cmp : string -> string -> comparison := String_as_OT.compare.

Definition ltb (a b : string) : bool :=
  match cmp a b with Lt => true | _ => false end.

(** [lower <= k]: [k] lies in [IDBKeyRange.lowerBound(lower)]. *)
Definition inLowerBound (lower k : string) : bool :=
  match cmp lower k with Gt => false | _ => true end.

Definition objectStore (V : Type) : Type := list (string * V).

Section Store.
Context {V : Type}.

(** [store.get(k)]. *)
Fixpoint get (k : string) (s : objectStore V) : option V :=
  match s with
  | [] => None
  | (k', v) :: s' =>
      match cmp k k' with
      | Eq => Some v
      | _ => get k s'
      end
  end.

(** [store.put(v, k)]: the record under [k] is added or replaced;
    records stay in key order. *)
Fixpoint put (k : string) (v : V) (s : objectStore V) : objectStore V :=
  match s with
  | [] => [(k, v)]
  | (k', v') :: s' =>
      match cmp k k' with
      | Lt => (k, v) :: (k', v') :: s'
      | Eq => (k, v) :: s'
      | Gt => (k', v') :: put k v s'
      end
  end.

(** [store.getAll()]. *)
Definition getAll (s : objectStore V) : list V := map snd s.

(** A cursor over a lower-bounded range, travelling from the
    largest key down ([direction = 'prev']). *)
Record cursor : Type := mkCursor {
  cursor_key : string;
  cursor_value : V;
  cursor_ahead : list (string * V);
  cursor_lower : string
}.

(** The next record of the range among those still ahead. *)
Fixpoint seek (lower : string) (ahead : list (string * V))
  : option cursor :=
  match ahead with
  | [] => None
  | (k, v) :: rest =>
      if inLowerBound lower k
      then Some (mkCursor k v rest lower)
      else seek lower rest
  end.

(** [store.openCursor(IDBKeyRange.lowerBound(lower), 'prev')]. *)
Definition openCursorPrev (lower : string) (s : objectStore V)
  : option cursor := seek lower (rev s).

(** [cursor.continue()]. *)
Definition continue (c : cursor) : option cursor :=
  seek (cursor_lower c) (cursor_ahead c).
End Store.
Arguments cursor V : clear implicits.

(** The database of one [LocalIndexedDB]: the message log (key path
    [timestamp]), the latest-message store and the meta store. *)
Record IDBPDatabase : Type := mkDB {
  message_log : objectStore Message;
  message_latest : objectStore Message;
  message_meta : objectStore string
}.

Definition empty : IDBPDatabase := mkDB [] [] [].

(** [messageLogStore.put(msg)]: the key is read off the key path. *)
Definition putLog (msg : Message) (db : IDBPDatabase) : IDBPDatabase :=
  mkDB (put (timestamp msg) msg (message_log db))
       (message_latest db) (message_meta db).

Definition putLatest (msg : Message) (key : string) (db : IDBPDatabase)
  : IDBPDatabase :=
  mkDB (message_log db) (put key msg (message_latest db))
       (message_meta db).
End Idb.
Import Idb.

(** ** LocalIndexedDB *)

Module LocalIndexedDB.

(** *** storeMessages

    [Promise.all(messages.map(async msg => ...))] starts one
    activation of the arrow function per message.  [map] calls them one
    after the other, and each returns to [map] at its first [await],
    with its [messageLogStore.get] placed.  From then on an activation
    runs only when the request it awaits is answered, up to its next
    [await], where it places its next request.  All requests go to the
    one transaction [t], which answers them in the order in which they
    were placed. *)

(** The [await] an activation is stopped at. *)
Inductive awaiting : Type :=
| LogGet        (* await messageLogStore.get(msg.timestamp) *)
| LogPut        (* await messageLogStore.put(msg) *)
| LatestGet     (* await latestMessageStore.get(key) *)
| LatestPut.    (* await latestMessageStore.put(msg, key) *)

Record activation : Type := mkActivation {
  act_index : nat;
  act_msg : Message;
  act_at : awaiting
}.

(** The request behind an [await], run on the stores: the stores
    afterwards and the answer ([undefined] is [None]). *)
Definition execute (a : activation) (db : IDBPDatabase)
  : IDBPDatabase * option Message :=
  let msg := act_msg a in
  match act_at a with
  | LogGet => (db, get (timestamp msg) (message_log db))
  | LogPut => (putLog msg db, None)
  | LatestGet => (db, get (latestMessageKey msg) (message_latest db))
  | LatestPut => (putLatest msg (latestMessageKey msg) db, None)
  end.

(** The arrow function from one [await] to the next, or to its
    [return !row]. *)
Inductive resumed : Type :=
| Await (next : awaiting)
| Return (r : bool).

Definition resume (msg : Message) (at_ : awaiting) (answer : option Message)
  : resumed :=
  match at_ with
  | LogGet =>
      match answer with
      | None => Await LogPut                          (* if (!row) *)
      | Some _ => Return false                        (* return !row *)
      end
  | LogPut => Await LatestGet
  | LatestGet =>
      match answer with
      | None => Await LatestPut                       (* !existingLatest *)
      | Some existingLatest =>
          if ltb (timestamp existingLatest) (timestamp msg)
          then Await LatestPut
          else Return true
      end
  | LatestPut => Return true
  end.

(** A transaction under way: the stores, the activations in the order
    of their outstanding requests, and the promises settled so far. *)
Record transaction : Type := mkTx {
  tx_db : IDBPDatabase;
  tx_requests : list activation;
  tx_settled : list (nat * bool)
}.

(** The oldest request is executed and its activation resumed. *)
Definition step (t : transaction) : option transaction :=
  match tx_requests t with
  | [] => None
  | a :: rest =>
      let (db', answer) := execute a (tx_db t) in
      Some
        match resume (act_msg a) (act_at a) answer with
        | Await next =>
            mkTx db' (rest ++ [mkActivation (act_index a) (act_msg a) next])
                 (tx_settled t)
        | Return r =>
            mkTx db' rest (tx_settled t ++ [(act_index a, r)])
        end
  end.

Fixpoint run (fuel : nat) (t : transaction) : option transaction :=
  match step t with
  | None => Some t
  | Some t' =>
      match fuel with
      | 0 => None
      | S fuel' => run fuel' t'
      end
  end.

(** The transaction after [n] more answers. *)
Fixpoint advance (n : nat) (t : transaction) : transaction :=
  match n with
  | 0 => t
  | S n' =>
      match step t with
      | Some t' => advance n' t'
      | None => t
      end
  end.

(** [messages.map(async msg => ...)]: every activation has placed its
    first request. *)
Fixpoint activate (i : nat) (messages : list Message) : list activation :=
  match messages with
  | [] => []
  | msg :: rest => mkActivation i msg LogGet :: activate (S i) rest
  end.

(** The value of [Promise.all]: the results by position. *)
Fixpoint settledAt (i : nat) (settled : list (nat * bool)) : option bool :=
  match settled with
  | [] => None
  | (j, r) :: rest => if Nat.eqb i j then Some r else settledAt i rest
  end.

Fixpoint promiseAll (indices : list nat) (settled : list (nat * bool))
  : option (list bool) :=
  match indices with
  | [] => Some []
  | i :: rest =>
      match settledAt i settled, promiseAll rest settled with
      | Some r, Some rs => Some (r :: rs)
      | _, _ => None
      end
  end.

(** [storeMessages(messages)]: the committed stores and the results;
    [None] would be a call that never returns. *)
Definition storeMessages (messages : list Message) (db : IDBPDatabase)
  : option (IDBPDatabase * list bool) :=
  match
    run (4 * length messages) (mkTx db (activate 0 messages) [])
  with
  | None => None
  | Some t =>
      match promiseAll (seq 0 (length messages)) (tx_settled t) with
      | None => None
      | Some results => Some (tx_db t, results)
      end
  end.

(** *** queryMessages *)

(** [while (cursor) { results.push(cursor.value); cursor = await
    cursor.continue() }]. *)
Fixpoint drain (fuel : nat) (cur : option (cursor Message))
  (results : list Message) : option (list Message) :=
  match cur with
  | None => Some results
  | Some c =>
      match fuel with
      | 0 => None
      | S fuel' => drain fuel' (continue c) (results ++ [cursor_value c])
      end
  end.

Definition queryMessages (since : string) (db : IDBPDatabase)
  : option (list Message) :=
  drain (length (message_log db))
        (openCursorPrev since (message_log db)) [].

(** *** queryLatestMessages *)

Definition queryLatestMessages (messages : list Message)
  (db : IDBPDatabase) : list (option Message) :=
  map (fun msg => get (latestMessageKey msg) (message_latest db)) messages.

(** *** set / get on the meta store *)

Definition set (key val : string) (db : IDBPDatabase) : IDBPDatabase :=
  mkDB (message_log db) (message_latest db) (put key val (message_meta db)).

Definition get (key : string) (db : IDBPDatabase) : option string :=
  Idb.get key (message_meta db).

(** *** applyChanges and its listeners *)

(** The body of [messages.map(msg => ...)] in [applyChanges]. *)
Definition consolidateOne (changes : Changes) (msg : Message) : Changes :=
  let ds :=
    match lookup (dataset msg) changes with
    | Some ds => ds
    | None => []
    end in
  let r :=
    match lookup (row msg) ds with
    | Some r => r
    | None => []
    end in
  assign (dataset msg)
         (assign (row msg) (assign (column msg) (value msg) r) ds) changes.

Definition consolidate (messages : list Message) : Changes :=
  fold_left consolidateOne messages [].

Section Listeners.
(** Whatever the listeners act on. *)
Variable World : Type.

(** A listener, by what one call of it does once it has returned; the
    listeners of this repository are async functions, which return a
    promise whatever becomes of their work. *)
Definition ChangeListener : Type := Changes -> World -> World.

(** [listenChanges(cb)]: [push]. *)
Definition listenChanges (cb : ChangeListener)
  (changeListeners : list ChangeListener) : list ChangeListener :=
  changeListeners ++ [cb].

(** [this.#changeListeners.forEach(c => c(changes))]. *)
Definition applyChanges (changeListeners : list ChangeListener)
  (messages : list Message) (w : World) : World :=
  let changes := consolidate messages in
  fold_left (fun w c => c changes w) changeListeners w.
End Listeners.
Arguments listenChanges {World} cb changeListeners.
Arguments applyChanges {World} changeListeners messages w.

End LocalIndexedDB.

(** ** The mirror and its projectors *)

(** A dataset of the mirror: row id to row. *)
Definition Dataset : Type := list (string * obj).

(** [mem]: dataset name to dataset. *)
Definition Mem : Type := list (string * Dataset).

(** [mem[ds]?.[id]]. *)
Definition rowAt (mem : Mem) (ds id : string) : option obj :=
  match lookup ds mem with
  | Some d => lookup id d
  | None => None
  end.

(** [syncDatasetMem(mem)], the listener that projects changes onto the
    mirror. *)
Definition syncDatasetMem : LocalIndexedDB.ChangeListener Mem :=
  fun changes mem =>
    fold_left
      (fun mem datasetName =>
         let d :=
           match lookup datasetName mem with
           | Some d => d
           | None => []
           end in
         let rows :=
           match lookup datasetName changes with
           | Some rows => rows
           | None => []
           end in
         assign datasetName
           (fold_left
              (fun d id =>
                 let cols :=
                   match lookup id rows with
                   | Some cols => cols
                   | None => []
                   end in
                 let r :=
                   match lookup id d with
                   | None => spread [("id", Str id)] cols
                   | Some r => spread r cols
                   end in
                 assign id r d)
              (keys rows) d)
           mem)
      (keys changes) mem.

(** The callback of [forEach] in [loadDatasetMem]. *)
Definition loadOne (mem : Mem) (msg : Message) : Mem :=
  let d :=
    match lookup (dataset msg) mem with
    | Some d => d
    | None => []
    end in
  let r :=
    match lookup (row msg) d with
    | Some r => r
    | None => [("id", Str (row msg))]
    end in
  assign (dataset msg)
         (assign (row msg) (assign (column msg) (value msg) r) d) mem.

(** [loadDatasetMem(mem, db)]. *)
Definition loadDatasetMem (mem : Mem) (db : IDBPDatabase) : Mem :=
  fold_left loadOne (getAll (message_latest db)) mem.

(** ** TheStore *)

(** One call of [send]: the batch, and the mirror as it stood when the
    call was made. *)
Record Dispatch : Type := mkDispatch {
  batch : list Outgoing;
  mirror_then : Mem
}.

(** The store as the proxies see it: the mirror and the calls of
    [send] so far, oldest first. *)
Record TheStore : Type := mkStore {
  mem : Mem;
  sent : list Dispatch
}.

Definition send (messages : list Outgoing) (s : TheStore) : TheStore :=
  mkStore (mem s) (sent s ++ [mkDispatch messages (mem s)]).

Definition setMem (m : Mem) (s : TheStore) : TheStore :=
  mkStore m (sent s).

(** What a trap hands back as a property descriptor. *)
Record PropertyDescriptor (A : Type) : Type := mkDescriptor {
  pd_value : A;
  pd_writable : bool;
  pd_enumerable : bool;
  pd_configurable : bool
}.
Arguments mkDescriptor {A}.
Arguments pd_value {A}.
Arguments pd_enumerable {A}.

(** [Object.keys(proxy)]: the [ownKeys] trap, then for each key the
    [getOwnPropertyDescriptor] trap; a key stays when the trap hands
    back an enumerable descriptor. *)
Fixpoint ObjectKeys {A : Type} (ownKeys : list string)
  (getOwnPropertyDescriptor : string -> result (option (PropertyDescriptor A)))
  : result (list string) :=
  match ownKeys with
  | [] => Ok []
  | k :: rest =>
      match getOwnPropertyDescriptor k with
      | Throw e => Throw e
      | Ok desc =>
          match ObjectKeys rest getOwnPropertyDescriptor with
          | Throw e => Throw e
          | Ok ks =>
              match desc with
              | Some d => if pd_enumerable d then Ok (k :: ks) else Ok ks
              | None => Ok ks
              end
          end
      end
  end.

(** A proxy is known by what its handler closes over. *)
Inductive DatasetHandle : Type := datasetProxy (ds : string).
Inductive RowHandle : Type := rowProxy (ds id : string).

Module DBProxy.

Definition get (ds : string) (s : TheStore) : DatasetHandle :=
  datasetProxy ds.

Definition set (s : TheStore) : result bool * TheStore :=
  (Throw (TypeError "cannot set on DB"), s).

Definition deleteProperty (s : TheStore) : result bool * TheStore :=
  (Throw (TypeError "cannot delete on DB"), s).

Definition ownKeys (s : TheStore) : list string := keys (mem s).

Definition has (ds : string) (s : TheStore) : bool := has_own ds (mem s).

Definition defineProperty (s : TheStore) : result bool * TheStore :=
  (Throw (TypeError "cannot defineProperty on DB"), s).

Definition getOwnPropertyDescriptor (p : string) (s : TheStore)
  : option (PropertyDescriptor DatasetHandle) :=
  Some (mkDescriptor (datasetProxy p) true true true).

End DBProxy.

Module DatasetProxy.

(** [#getDataset()]: the dataset, created empty in the mirror when it
    is not there yet. *)
Definition getDataset (ds : string) (s : TheStore) : Dataset * TheStore :=
  match lookup ds (mem s) with
  | Some d => (d, s)
  | None => ([], setMem (assign ds [] (mem s)) s)
  end.

Definition has (ds id : string) (s : TheStore) : bool :=
  match rowAt (mem s) ds id with
  | Some r => negb (truthy (prop r "tombstone"))
  | None => false
  end.

Definition get (ds id : string) (s : TheStore) : option RowHandle :=
  if has ds id s then Some (rowProxy ds id) else None.

(** The message for a column of the new value, unless the existing
    row holds a deep-equal value there. *)
Definition changed (ds id : string) (existing : obj)
  (kv : string * JsValue) : list Outgoing :=
  if dequal (prop existing (fst kv)) (snd kv)
  then []
  else [mkOutgoing ds id (fst kv) (snd kv)].

(** The message for a column of the existing row that the new value
    lacks. *)
Definition dropped (ds id : string) (val : obj) (k : string)
  : list Outgoing :=
  if has_own k val then [] else [mkOutgoing ds id k Undefined].

Definition set (ds id : string) (val : JsValue) (s : TheStore)
  : result bool * TheStore :=
  match typeof val with
  | TObject =>
      match structuredClone val with
      | None => (Throw DataCloneError, s)
      | Some (Object props) =>
          let checked :=
            match lookup "id" props with
            | Some valueID =>
                if match valueID with
                   | Str x => String.eqb id x
                   | _ => false
                   end
                then Ok props
                else Throw (Error
                  ("id mismatch in dataset " ++ quoted ds
                   ++ " with row id " ++ quoted id
                   ++ " and valud id " ++ toText valueID)%string)
            | None => Ok (assign "id" (Str id) props)
            end in
          match checked with
          | Throw e => (Throw e, s)
          | Ok val' =>
              let (d, s1) := getDataset ds s in
              let existing :=
                match lookup id d with
                | Some r => r
                | None => []
                end in
              let s2 :=
                send (flat_map (changed ds id existing) val'
                      ++ flat_map (dropped ds id val') (keys existing)) s1 in
              (Ok true, setMem (assign ds (assign id val' d) (mem s2)) s2)
          end
      | Some _ =>
          (* ['id' in null] *)
          (Throw (TypeError
             "Cannot use 'in' operator to search for 'id' in null"), s)
      end
  | _ =>
      (Throw (Error
         ("cannot use non object value in dataset " ++ quoted ds
          ++ " with row id " ++ quoted id)%string), s)
  end.

Definition deleteProperty (ds id : string) (s : TheStore)
  : result bool * TheStore :=
  let s1 := send [mkOutgoing ds id "tombstone" (Boolean true)] s in
  let (d, s2) := getDataset ds s1 in
  let r :=
    match lookup id d with
    | Some r => assign "tombstone" (Boolean true) r
    | None => [("tombstone", Boolean true)]
    end in
  (Ok true, setMem (assign ds (assign id r d) (mem s2)) s2).

Definition ownKeys (ds : string) (s : TheStore) : list string * TheStore :=
  let (d, s1) := getDataset ds s in
  (keys (filter (fun r => negb (truthy (prop (snd r) "tombstone"))) d), s1).

Definition defineProperty (ds : string) (s : TheStore)
  : result bool * TheStore :=
  (Throw (TypeError
     ("cannot defineProperty on dataset " ++ quoted ds)%string), s).

Definition getOwnPropertyDescriptor (ds id : string) (s : TheStore)
  : option (PropertyDescriptor RowHandle) :=
  match get ds id s with
  | Some v => Some (mkDescriptor v true true true)
  | None => None
  end.

(** [Object.keys(dataset)] on the dataset's proxy. *)
Definition enumerate (ds : string) (s : TheStore)
  : result (list string) * TheStore :=
  let (ks, s1) := ownKeys ds s in
  (ObjectKeys ks (fun id => Ok (getOwnPropertyDescriptor ds id s1)), s1).

End DatasetProxy.

Module RowProxy.

Section Inherited.
(** [Object.prototype[p]], what a row shows for a name it does not
    own ([undefined] where the prototype has nothing either). *)
Variable inherited : string -> JsValue.

Definition get (ds id p : string) (s : TheStore) : result JsValue :=
  match rowAt (mem s) ds id with
  | None => Ok Undefined
  | Some r =>
      let val :=
        match lookup p r with
        | Some v => v
        | None => inherited p
        end in
      if isPrimitive val || negb (has_own p r)
      then Ok val
      else Throw (Error
        ("non primitive value for dataset " ++ quoted ds
         ++ " row with id " ++ quoted id
         ++ " and property " ++ quoted p
         ++ " of type " ++ quoted (typeName (typeof val))
         ++ " and value " ++ quoted (toText val))%string)
  end.

Definition getOwnPropertyDescriptor (ds id p : string) (s : TheStore)
  : result (option (PropertyDescriptor JsValue)) :=
  match get ds id p s with
  | Throw e => Throw e
  | Ok v =>
      if truthy v
      then Ok (Some (mkDescriptor v true true true))
      else Ok None
  end.
End Inherited.

Definition set (ds id p : string) (val : JsValue) (s : TheStore)
  : result bool * TheStore :=
  let s1 := send [mkOutgoing ds id p val] s in
  let d :=
    match lookup ds (mem s1) with
    | Some d => d
    | None => []
    end in
  let r :=
    match lookup id d with
    | Some r => r
    | None => [("id", Str id)]
    end in
  (Ok true, setMem (assign ds (assign id (assign p val r) d) (mem s1)) s1).

Definition deleteProperty (ds id p : string) (s : TheStore)
  : result bool * TheStore :=
  let s1 := send [mkOutgoing ds id p Undefined] s in
  (Ok true,
   match lookup ds (mem s1) with
   | None => s1
   | Some d =>
       match lookup id d with
       | None => s1
       | Some r => setMem (assign ds (assign id (remove p r) d) (mem s1)) s1
       end
   end).

Definition ownKeys (ds id : string) (s : TheStore) : list string :=
  match rowAt (mem s) ds id with
  | Some r => keys r
  | None => []
  end.

Definition has (ds id p : string) (s : TheStore) : bool :=
  match rowAt (mem s) ds id with
  | Some r => has_own p r
  | None => false
  end.

Definition defineProperty (ds id : string) (s : TheStore)
  : result bool * TheStore :=
  (Throw (TypeError
     ("cannot defineProperty on dataset " ++ quoted ds
      ++ " with row id " ++ id)%string), s).

(** [Object.keys(row)] on the row's proxy. *)
Definition enumerate (inherited : string -> JsValue) (ds id : string)
  (s : TheStore) : result (list string) :=
  ObjectKeys (ownKeys ds id s)
             (fun p => getOwnPropertyDescriptor inherited ds id p s).

End RowProxy.

(** ** What one call of storeMessages amounts to *)

Module Batch.

(** [!row]: the log held nothing under the message's timestamp when
    the call began. *)
Definition fresh (db : IDBPDatabase) (msg : Message) : bool :=
  match Idb.get (timestamp msg) (message_log db) with
  | None => true
  | Some _ => false
  end.

(** [!existingLatest || existingLatest.timestamp < msg.timestamp],
    against the latest-message store as the call found it. *)
Definition wins (db : IDBPDatabase) (msg : Message) : bool :=
  match Idb.get (latestMessageKey msg) (message_latest db) with
  | None => true
  | Some existingLatest => ltb (timestamp existingLatest) (timestamp msg)
  end.

Definition stored (db : IDBPDatabase) (messages : list Message)
  : list Message := filter (fresh db) messages.

Definition winners (db : IDBPDatabase) (messages : list Message)
  : list Message := filter (wins db) (stored db messages).

Definition putLogs (messages : list Message) (db : IDBPDatabase)
  : IDBPDatabase := fold_left (fun d m => putLog m d) messages db.

Definition putLatests (messages : list Message) (db : IDBPDatabase)
  : IDBPDatabase :=
  fold_left (fun d m => putLatest m (latestMessageKey m) d) messages db.

(** The stores once the transaction is done. *)
Definition commit (messages : list Message) (db : IDBPDatabase)
  : IDBPDatabase :=
  putLatests (winners db messages) (putLogs (stored db messages) db).

Definition results (messages : list Message) (db : IDBPDatabase)
  : list bool := map (fresh db) messages.

End Batch.

(** ** The transaction of storeMessages, round by round *)

Module Rounds.
Import LocalIndexedDB.

(** The requests [q] answered in order: the stores, the requests the
    resumed activations placed, and the promises they settled. *)
Fixpoint serve (q : list activation) (db : IDBPDatabase)
  : IDBPDatabase * list activation * list (nat * bool) :=
  match q with
  | [] => (db, [], [])
  | a :: q' =>
      let (db1, answer) := execute a db in
      let '(db2, placed, settled) := serve q' db1 in
      match resume (act_msg a) (act_at a) answer with
      | Await next =>
          (db2, mkActivation (act_index a) (act_msg a) next :: placed,
           settled)
      | Return r => (db2, placed, (act_index a, r) :: settled)
      end
  end.

(** The messages with their positions. *)
Definition indexed (i : nat) (messages : list Message)
  : list (nat * Message) := combine (seq i (length messages)) messages.

Definition stoppedAt (at_ : awaiting) (ims : list (nat * Message))
  : list activation :=
  map (fun im => mkActivation (fst im) (snd im) at_) ims.

Definition settleAll (r : bool) (ims : list (nat * Message))
  : list (nat * bool) := map (fun im => (fst im, r)) ims.

Definition freshAt (db : IDBPDatabase) (im : nat * Message) : bool :=
  Batch.fresh db (snd im).

Definition winsAt (db : IDBPDatabase) (im : nat * Message) : bool :=
  Batch.wins db (snd im).

End Rounds.

(** ** storeMessages read one message at a time

    The reading in which each message is dealt with completely before
    the next one is looked at: the log is probed, and the latest entry
    compared, against what the earlier messages of the batch left. *)

Module InTurn.

Definition storeOne (msg : Message) (db : IDBPDatabase)
  : IDBPDatabase * bool :=
  if Batch.fresh db msg
  then
    let db1 := putLog msg db in
    ((if Batch.wins db1 msg
      then putLatest msg (latestMessageKey msg) db1
      else db1), true)
  else (db, false).

Fixpoint storeMessages (messages : list Message) (db : IDBPDatabase)
  : IDBPDatabase * list bool :=
  match messages with
  | [] => (db, [])
  | msg :: rest =>
      let (db1, r) := storeOne msg db in
      let (db2, rs) := storeMessages rest db1 in
      (db2, r :: rs)
  end.

End InTurn.

(** ** Calls in sequence *)

(** The stores after the given calls of [storeMessages], earliest
    first, on [db]. *)
Fixpoint storeCalls (calls : list (list Message)) (db : IDBPDatabase)
  : option IDBPDatabase :=
  match calls with
  | [] => Some db
  | messages :: later =>
      match LocalIndexedDB.storeMessages messages db with
      | None => None
      | Some (db', _) => storeCalls later db'
      end
  end.

(** The messages a sequence of calls reported as newly stored. *)
Fixpoint ingested (calls : list (list Message)) (db : IDBPDatabase)
  : list Message :=
  match calls with
  | [] => []
  | messages :: later =>
      match LocalIndexedDB.storeMessages messages db with
      | None => []
      | Some (db', results) =>
          map fst (filter snd (combine messages results))
          ++ ingested later db'
      end
  end.

(** No two messages of the batch share a timestamp or a cell key. *)
Definition apart (messages : list Message) : Prop :=
  NoDup (map timestamp messages) /\ NoDup (map latestMessageKey messages).

(** ** Shapes of stores and mirrors *)

(** Records in strictly ascending key order. *)
Fixpoint ascending {V : Type} (s : objectStore V) : Prop :=
  match s with
  | [] => True
  | (k, _) :: s' => Forall (fun r => cmp k (fst r) = Lt) s' /\ ascending s'
  end.

(** The log as IndexedDB keeps it: in key order, every record under its
    own timestamp. *)
Definition logShape (log : objectStore Message) : Prop :=
  ascending log /\ Forall (fun r => fst r = timestamp (snd r)) log.

(** Strictly descending timestamps. *)
Fixpoint descending (l : list Message) : Prop :=
  match l with
  | [] => True
  | m :: l' =>
      Forall (fun m' => cmp (timestamp m') (timestamp m) = Lt) l'
      /\ descending l'
  end.

(** Every row of the mirror carries its key as [id]. *)
Definition rowsCarryId (m : Mem) : Prop :=
  forall ds id r, rowAt m ds id = Some r -> lookup "id" r = Some (Str id).

(** ** The latest entry against what was stored *)

(** After the calls [calls] made on [db], whatever entry the latest
    store holds for the cell of a message those calls stored is at
    least as late as that message. *)
Definition latestDominates (calls : list (list Message)) (db : IDBPDatabase)
  : Prop :=
  forall db', storeCalls calls db = Some db' ->
  forall m e,
    In m (ingested calls db) ->
    Idb.get (latestMessageKey m) (message_latest db') = Some e ->
    ltb (timestamp e) (timestamp m) = false.

(** Every message stored so far has an entry for its cell that is at
    least as late. *)
Definition coveredBy (db : IDBPDatabase) (history : list Message) : Prop :=
  forall m, In m history ->
    exists e,
      Idb.get (latestMessageKey m) (message_latest db) = Some e
      /\ ltb (timestamp e) (timestamp m) = false.

(** The records of a store under key [k]. *)
Definition recordsUnder {V : Type} (k : string) (s : objectStore V)
  : list (string * V) :=
  filter (fun r => String.eqb (fst r) k) s.

(** The record lies in [IDBKeyRange.lowerBound(since)]. *)
Definition inRange (since : string) (r : string * Message) : bool :=
  inLowerBound since (fst r).

(** ** The messages of the test suite *)

Definition yodaNameMessage : Message :=
  mkMessage "2020-09-10T09:21:40.000Z-0000-e35dd11177e4cc2c"
            "people" "123" "name" (Str "Yoda").

Definition yodaAge900Message : Message :=
  mkMessage "2020-09-10T09:23:20.000Z-0000-e35dd11177e4cc2c"
            "people" "123" "age" (Number 900).

Definition yodaAge950Message : Message :=
  mkMessage "2020-09-10T09:25:00.000Z-0000-e35dd11177e4cc2c"
            "people" "123" "age" (Number 950).

(** The stores once the two messages about yoda have been stored. *)
Definition yodaLog : IDBPDatabase :=
  Batch.commit [yodaNameMessage; yodaAge900Message] Idb.empty.

(** ** Cells of a consolidated structure *)

(** [changes[d][r][c]], where all three levels are there. *)
Definition cellAt (changes : Changes) (d r c : string) : option JsValue :=
  match lookup d changes with
  | Some rows =>
      match lookup r rows with
      | Some cols => lookup c cols
      | None => None
      end
  | None => None
  end.

Definition sameCell (d r c : string) (msg : Message) : bool :=
  String.eqb d (dataset msg) && String.eqb r (row msg)
  && String.eqb c (column msg).

(** The value of the last message of the list that is for the cell. *)
Fixpoint lastFor (d r c : string) (messages : list Message)
  : option JsValue :=
  match messages with
  | [] => None
  | msg :: rest =>
      match lastFor d r c rest with
      | Some v => Some v
      | None => if sameCell d r c msg then Some (value msg) else None
      end
  end.

(** No name twice among the own properties. *)
Definition distinctKeys {V : Type} (o : list (string * V)) : Prop :=
  NoDup (keys o).

(** Three levels of objects, each a mapping. *)
Definition nested (m : list (string * list (string * obj))) : Prop :=
  distinctKeys m
  /\ Forall (fun d =>
               distinctKeys (snd d)
               /\ Forall (fun r => distinctKeys (snd r)) (snd d)) m.

(** A listener together with a record of the calls made to it: which
    registration was called, and with what. *)
Definition recording {World : Type} (i : nat)
  (c : LocalIndexedDB.ChangeListener World)
  : LocalIndexedDB.ChangeListener (World * list (nat * Changes)) :=
  fun changes w => (c changes (fst w), snd w ++ [(i, changes)]).

Fixpoint recordingAll {World : Type} (i : nat)
  (cs : list (LocalIndexedDB.ChangeListener World))
  : list (LocalIndexedDB.ChangeListener (World * list (nat * Changes))) :=
  match cs with
  | [] => []
  | c :: cs' => recording i c :: recordingAll (S i) cs'
  end.

(** ** Words for the accessor's properties *)

(** The message has [name] in it. *)
Definition mentions (name message : string) : Prop :=
  exists before after, message = (before ++ name ++ after)%string.

(** A value [structuredClone] copies. *)
Definition structured (v : JsValue) : Prop := structuredClone v = Some v.

(** The new value once it has its [id]. *)
Definition withId (id : string) (props : obj) : obj :=
  match lookup "id" props with
  | Some _ => props
  | None => assign "id" (Str id) props
  end.

(** The mirror once [#getDataset()] has run for [ds]. *)
Definition vivified (ds : string) (m : Mem) : Mem :=
  match lookup ds m with
  | Some _ => m
  | None => assign ds [] m
  end.

Definition datasetOf (ds : string) (m : Mem) : Dataset :=
  match lookup ds m with
  | Some d => d
  | None => []
  end.

(** [dataset[id] ?? {}]. *)
Definition existingRow (ds id : string) (m : Mem) : obj :=
  match rowAt m ds id with
  | Some r => r
  | None => []
  end.

(** The batch of a dataset-level write. *)
Definition difference (ds id : string) (existing val : obj) : list Outgoing :=
  flat_map (DatasetProxy.changed ds id existing) val
  ++ flat_map (DatasetProxy.dropped ds id val) (keys existing).

(** [row.tombstone] holds. *)
Definition tombstoned (r : obj) : bool := truthy (prop r "tombstone").

(** A batch as [SyncDB.send] stamps it, and what the listeners are told
    of it when it is applied. *)
Definition stamp (clock : Outgoing -> string) (o : Outgoing) : Message :=
  mkMessage (clock o) (out_dataset o) (out_row o) (out_column o)
            (out_value o).

Definition told (clock : Outgoing -> string) (sentBatch : list Outgoing)
  : Changes :=
  LocalIndexedDB.consolidate (map (stamp clock) sentBatch).

(** A structure of changes as one value, and [deepEqual] on two of
    them. *)
Definition asValue (changes : Changes) : JsValue :=
  Object (map (fun d =>
                 (fst d,
                  Object (map (fun r => (fst r, Object (snd r))) (snd d))))
              changes).

Definition sameChanges (a b : Changes) : bool :=
  dequal (asValue a) (asValue b).

(** The rows of the end-to-end test. *)
Definition yoda : JsValue :=
  Object [("name", Str "yoda"); ("age", Number 942)].

Definition yodaWithoutAge : JsValue := Object [("name", Str "yoda")].

Definition freshStore : TheStore := mkStore [] [].

(** The batch of the latest call of [send]. *)
Definition lastBatch (s : TheStore) : list Outgoing :=
  match rev (sent s) with
  | d :: _ => batch d
  | [] => []
  end.

(** The row a delete leaves in the mirror. *)
Definition tombstoneRow (ds id : string) (m : Mem) : obj :=
  match rowAt m ds id with
  | Some r => assign "tombstone" (Boolean true) r
  | None => [("tombstone", Boolean true)]
  end.

(** The store of the end-to-end test once yoda has been written. *)
Definition yodaStore : TheStore :=
  snd (DatasetProxy.set "jedi" "yoda" yoda freshStore).

(** A mirror with yoda in it, and one without. *)
Definition yodaMem : Mem := [("jedi", [("yoda", [("id", Str "yoda")])])].

(** A row with a column that holds zero. *)
Definition newbornStore : TheStore :=
  mkStore
    [("jedi",
      [("yoda",
        [("id", Str "yoda"); ("name", Str "yoda"); ("age", Number 0)])])]
    [].

(** No colon in the name. *)
Fixpoint colonFree (s : string) : bool :=
  match s with
  | EmptyString => true
  | String a s' => negb (Ascii.eqb a ":") && colonFree s'
  end.

(** ** Words for the projectors *)

(** The callback of the inner [map] of [syncDatasetMem], for the rows
    [rows] of the changes. *)
Definition mergeRow (rows : list (string * obj)) (d : Dataset) (id : string)
  : Dataset :=
  let cols :=
    match lookup id rows with
    | Some cols => cols
    | None => []
    end in
  let r :=
    match lookup id d with
    | None => spread [("id", Str id)] cols
    | Some r => spread r cols
    end in
  assign id r d.

(** The callback of the outer [map] of [syncDatasetMem]. *)
Definition mergeDataset (changes : Changes) (m : Mem) (datasetName : string)
  : Mem :=
  let d :=
    match lookup datasetName m with
    | Some d => d
    | None => []
    end in
  let rows :=
    match lookup datasetName changes with
    | Some rows => rows
    | None => []
    end in
  assign datasetName (fold_left (mergeRow rows) (keys rows) d) m.

(** The row the projectors start from: the mirror's, or a new one with
    its [id]. *)
Definition baseRow (m : Mem) (ds id : string) : obj :=
  match rowAt m ds id with
  | Some r => r
  | None => [("id", Str id)]
  end.

Definition sameRow (d r : string) (msg : Message) : bool :=
  String.eqb d (dataset msg) && String.eqb r (row msg).

(** Some message of the list is for the row. *)
Definition touched (d r : string) (messages : list Message) : bool :=
  existsb (sameRow d r) messages.

(** The cell once the messages have been replayed onto the mirror: the
    value of the last message for the cell; failing that what the
    mirror row held; failing a mirror row, the [id] a touched row is
    created with. *)
Definition replayed (m : Mem) (messages : list Message) (d r c : string)
  : option JsValue :=
  match lastFor d r c messages with
  | Some v => Some v
  | None =>
      match rowAt m d r with
      | Some r0 => lookup c r0
      | None =>
          if touched d r messages && String.eqb c "id"
          then Some (Str r)
          else None
      end
  end.

(** The changes, or the mirror, hold the row. *)
Definition hasRow (m : Mem) (d r : string) : bool :=
  match rowAt m d r with
  | Some _ => true
  | None => false
  end.

(** ** Words for further properties of the accessor *)

(** A value the dataset takes for the row [id]: an object that
    [structuredClone] copies, with no [id] or with the row's. *)
Definition acceptable (id : string) (val : JsValue) : Prop :=
  exists props,
    val = Object props
    /\ structured val
    /\ (lookup "id" props = None \/ lookup "id" props = Some (Str id)).

(** No name twice among the own properties of a value, at any depth. *)
Fixpoint wellKeyed (v : JsValue) : Prop :=
  match v with
  | Object ps =>
      NoDup (map fst ps)
      /\ (fix each (l : list (string * JsValue)) : Prop :=
            match l with
            | [] => True
            | (_, x) :: l' => wellKeyed x /\ each l'
            end) ps
  | _ => True
  end.

(** ** Listeners by identity *)

(** A callback as [listenChanges] keeps it: the function object, known
    by [identity] (what [!=] tells apart), and what a call of it
    does. *)
Record Callback (World : Type) : Type := mkCallback {
  identity : nat;
  run : LocalIndexedDB.ChangeListener World
}.
Arguments mkCallback {World}.
Arguments identity {World}.
Arguments run {World}.

(** [this.#changeListeners.push(cb)]. *)
Definition subscribe {World : Type} (cb : Callback World)
  (changeListeners : list (Callback World)) : list (Callback World) :=
  changeListeners ++ [cb].

(** The function [listenChanges(cb)] returns:
    [this.#changeListeners.filter(e => e != cb)]. *)
Definition unsubscribe {World : Type} (cb : Callback World)
  (changeListeners : list (Callback World)) : list (Callback World) :=
  filter (fun e => negb (Nat.eqb (identity e) (identity cb)))
         changeListeners.

(** ** The object stores of the database *)

(** The object stores by name, each with its key path ([None]: keys are
    given with the record). *)
Definition Schema : Type := list (string * option string).

(** [db.objectStoreNames.contains(name)]. *)
Definition contains (name : string) (db : Schema) : bool := has_own name db.

(** [db.createObjectStore(name, { keyPath })]; [None] is the
    ConstraintError for a name the database has. *)
Definition createObjectStore (name : string) (keyPath : option string)
  (db : Schema) : option Schema :=
  if contains name db then None else Some (db ++ [(name, keyPath)]).

(** [upgradeDB(db)] of an instance made with [internalPrefix]. *)
Definition upgradeDB (internalPrefix : string) (db : Schema)
  : option Schema :=
  let messageLogStoreName := (internalPrefix ++ "message_log")%string in
  let latestMessageStoreName := (internalPrefix ++ "message_latest")%string in
  let messageMetaStoreName := (internalPrefix ++ "message_meta")%string in
  match
    if negb (contains messageLogStoreName db)
    then createObjectStore messageLogStoreName (Some "timestamp") db
    else Some db
  with
  | None => None
  | Some db1 =>
      fold_left
        (fun done name =>
           match done with
           | None => None
           | Some db2 =>
               if negb (contains name db2)
               then createObjectStore name None db2
               else Some db2
           end)
        [latestMessageStoreName; messageMetaStoreName]
        (Some db1)
  end.

(** One step of [upgradeDB]: the store is made unless it is there. *)
Definition ensured (name : string) (keyPath : option string) (db : Schema)
  : Schema :=
  if contains name db then db else db ++ [(name, keyPath)].

(** The latest-message store as [storeMessages] keeps it: in key
    order, every entry under the key of its own cell; and no colon in
    the names of datasets and rows. *)
Definition latestShape (latest : objectStore Message) : Prop :=
  ascending latest
  /\ Forall (fun r =>
               fst r = latestMessageKey (snd r)
               /\ colonFree (dataset (snd r)) = true
               /\ colonFree (row (snd r)) = true) latest.

(** * Properties *)

(** ** The order of keys *)

Section KeyOrder.

Lemma cmp_refl (a : string) : cmp a a = Eq.
Proof. apply StringOrder.compare_refl. Qed.

Lemma cmp_eq (a b : string) : cmp a b = Eq -> a = b.
Proof.
  intro H. unfold cmp in H.
  now destruct (String_as_OT.compare_spec a b); try discriminate.
Qed.

Lemma cmp_flip (a b : string) : cmp b a = CompOpp (cmp a b).
Proof. apply StringOrder.compare_antisym. Qed.

Lemma cmp_lt_trans (a b c : string) :
  cmp a b = Lt -> cmp b c = Lt -> cmp a c = Lt.
Proof.
  intros Hab Hbc.
  exact (StrictOrder_Transitive (R := String_as_OT.lt) a b c Hab Hbc).
Qed.

Lemma cmp_gt_lt (a b : string) : cmp a b = Gt -> cmp b a = Lt.
Proof. intro H. rewrite cmp_flip, H. reflexivity. Qed.

Lemma cmp_neq (a b : string) : a <> b -> cmp a b <> Eq.
Proof. intros Hne H. apply Hne. now apply cmp_eq. Qed.

Lemma ltb_irrefl (a : string) : ltb a a = false.
Proof. unfold ltb. now rewrite cmp_refl. Qed.

End KeyOrder.

(** ** get and put *)

Section GetPut.
Context {V : Type}.
Implicit Types (s : objectStore V) (k : string) (v : V).

Lemma get_put_same k v s : Idb.get k (put k v s) = Some v.
Proof.
  induction s as [|[k' v'] s IH]; simpl.
  - now rewrite cmp_refl.
  - destruct (cmp k k') eqn:E; simpl.
    + now rewrite cmp_refl.
    + now rewrite cmp_refl.
    + now rewrite E.
Qed.

Lemma get_put_other k k' v s :
  k <> k' -> Idb.get k' (put k v s) = Idb.get k' s.
Proof.
  intro Hne.
  assert (Hc : cmp k' k <> Eq) by (apply cmp_neq; congruence).
  induction s as [|[k1 v1] s IH]; simpl.
  - destruct (cmp k' k); congruence.
  - destruct (cmp k k1) eqn:E; simpl.
    + apply cmp_eq in E. subst k1.
      destruct (cmp k' k); congruence.
    + destruct (cmp k' k); congruence.
    + destruct (cmp k' k1); auto.
Qed.

End GetPut.

(** ** The transaction of storeMessages, request by request *)

Module TxFacts.
Import LocalIndexedDB Rounds.

Lemma run_serve (q : list activation) :
  forall fuel db later settled,
    run (length q + fuel) (mkTx db (q ++ later) settled) =
    let '(db', placed, settled') := serve q db in
    run fuel (mkTx db' (later ++ placed) (settled ++ settled')).
Proof.
  induction q as [|a q IH]; intros fuel db later settled.
  - simpl. now rewrite !app_nil_r.
  - cbn [length Nat.add app run step tx_requests tx_db tx_settled serve].
    destruct (execute a db) as [db1 answer].
    destruct (resume (act_msg a) (act_at a) answer) as [next|r].
    + rewrite <- app_assoc, IH.
      destruct (serve q db1) as [[db2 placed] settled'].
      now rewrite <- app_assoc.
    + rewrite IH.
      destruct (serve q db1) as [[db2 placed] settled'].
      now rewrite <- app_assoc.
Qed.

Lemma run_idle (fuel : nat) (db : IDBPDatabase) (settled : list (nat * bool)) :
  run fuel (mkTx db [] settled) = Some (mkTx db [] settled).
Proof. destruct fuel; reflexivity. Qed.

(** One round: every outstanding request is answered once. *)
Lemma run_round (q : list activation) (fuel : nat) (db : IDBPDatabase)
  (settled : list (nat * bool)) :
  length q <= fuel ->
  run fuel (mkTx db q settled) =
  let '(db', placed, settled') := serve q db in
  run (fuel - length q) (mkTx db' placed (settled ++ settled')).
Proof.
  intro Hle.
  pose proof (run_serve q (fuel - length q) db [] settled) as H.
  rewrite app_nil_r in H.
  replace (length q + (fuel - length q)) with fuel in H by lia.
  rewrite H.
  now destruct (serve q db) as [[db' placed] settled'].
Qed.

Lemma activate_indexed (messages : list Message) :
  forall i, activate i messages = stoppedAt LogGet (indexed i messages).
Proof.
  induction messages as [|m ms IH]; intro i; simpl; [reflexivity|].
  f_equal. apply IH.
Qed.

Lemma indexed_fst (messages : list Message) (i : nat) :
  map fst (indexed i messages) = seq i (length messages).
Proof.
  unfold indexed. revert i.
  induction messages as [|m ms IH]; intro i; simpl; [reflexivity|].
  f_equal. apply IH.
Qed.

Lemma indexed_snd (messages : list Message) (i : nat) :
  map snd (indexed i messages) = messages.
Proof.
  unfold indexed. revert i.
  induction messages as [|m ms IH]; intro i; simpl; [reflexivity|].
  f_equal. apply IH.
Qed.

(** Round one: the probes of the log.  Nothing is written; the fresh
    messages go on to their [put]. *)
Lemma serve_LogGet (db : IDBPDatabase) (ims : list (nat * Message)) :
  serve (stoppedAt LogGet ims) db =
  (db, stoppedAt LogPut (filter (freshAt db) ims),
   settleAll false (filter (fun im => negb (freshAt db im)) ims)).
Proof.
  induction ims as [|[i m] ims IH]; [reflexivity|].
  cbn [stoppedAt map serve execute act_at act_msg act_index fst snd].
  fold (stoppedAt LogGet ims). rewrite IH.
  assert (E : freshAt db (i, m) =
              match Idb.get (timestamp m) (message_log db) with
              | None => true
              | Some _ => false
              end) by reflexivity.
  cbn [filter]. rewrite E. cbn [resume].
  destruct (Idb.get (timestamp m) (message_log db)); reflexivity.
Qed.

(** Round two: the writes to the log, in batch order. *)
Lemma serve_LogPut (ims : list (nat * Message)) :
  forall db,
    serve (stoppedAt LogPut ims) db =
    (Batch.putLogs (map snd ims) db, stoppedAt LatestGet ims, []).
Proof.
  induction ims as [|[i m] ims IH]; intro db; [reflexivity|].
  cbn [stoppedAt map serve execute act_at act_msg act_index fst snd resume].
  fold (stoppedAt LogPut ims). rewrite IH. reflexivity.
Qed.

(** Round three: the probes of the latest-message store.  Nothing is
    written. *)
Lemma serve_LatestGet (db : IDBPDatabase) (ims : list (nat * Message)) :
  serve (stoppedAt LatestGet ims) db =
  (db, stoppedAt LatestPut (filter (winsAt db) ims),
   settleAll true (filter (fun im => negb (winsAt db im)) ims)).
Proof.
  induction ims as [|[i m] ims IH]; [reflexivity|].
  cbn [stoppedAt map serve execute act_at act_msg act_index fst snd].
  fold (stoppedAt LatestGet ims). rewrite IH.
  assert (E : winsAt db (i, m) =
              match Idb.get (latestMessageKey m) (message_latest db) with
              | None => true
              | Some e => ltb (timestamp e) (timestamp m)
              end) by reflexivity.
  cbn [filter]. rewrite E. cbn [resume].
  destruct (Idb.get (latestMessageKey m) (message_latest db)) as [e|];
    [|reflexivity].
  destruct (ltb (timestamp e) (timestamp m)); reflexivity.
Qed.

(** Round four: the writes to the latest-message store, in batch
    order. *)
Lemma serve_LatestPut (ims : list (nat * Message)) :
  forall db,
    serve (stoppedAt LatestPut ims) db =
    (Batch.putLatests (map snd ims) db, [], settleAll true ims).
Proof.
  induction ims as [|[i m] ims IH]; intro db; [reflexivity|].
  cbn [stoppedAt map serve execute act_at act_msg act_index fst snd resume].
  fold (stoppedAt LatestPut ims). rewrite IH. reflexivity.
Qed.

Lemma length_stoppedAt (at_ : awaiting) (ims : list (nat * Message)) :
  length (stoppedAt at_ ims) = length ims.
Proof. apply length_map. Qed.

Lemma snd_filter (f : Message -> bool) (ims : list (nat * Message)) :
  map snd (filter (fun im => f (snd im)) ims) = filter f (map snd ims).
Proof.
  induction ims as [|[i m] ims IH]; simpl; [reflexivity|].
  destruct (f m); simpl; now rewrite IH.
Qed.

Lemma latest_putLogs (l : list Message) :
  forall db, message_latest (Batch.putLogs l db) = message_latest db.
Proof.
  induction l as [|m l IH]; intro db; simpl; [reflexivity|].
  unfold Batch.putLogs in IH. now rewrite IH.
Qed.

Lemma log_putLatests (l : list Message) :
  forall db, message_log (Batch.putLatests l db) = message_log db.
Proof.
  induction l as [|m l IH]; intro db; simpl; [reflexivity|].
  unfold Batch.putLatests in IH. now rewrite IH.
Qed.

Lemma wins_putLogs (l : list Message) (db : IDBPDatabase) (m : Message) :
  Batch.wins (Batch.putLogs l db) m = Batch.wins db m.
Proof. unfold Batch.wins. now rewrite latest_putLogs. Qed.

(** A position names one message. *)
Lemma indexed_functional (ims : list (nat * Message)) (i : nat)
  (m m' : Message) :
  NoDup (map fst ims) -> In (i, m) ims -> In (i, m') ims -> m = m'.
Proof.
  induction ims as [|[j x] ims IH]; simpl; intros Hnd H1 H2; [easy|].
  inversion Hnd as [|? ? Hnotin Hnd']; subst.
  destruct H1 as [H1|H1], H2 as [H2|H2].
  - congruence.
  - inversion H1; subst. exfalso. apply Hnotin.
    change i with (fst (i, m')). now apply in_map.
  - inversion H2; subst. exfalso. apply Hnotin.
    change i with (fst (i, m)). now apply in_map.
  - now apply IH.
Qed.

Lemma settledAt_only (i : nat) (b : bool) (l : list (nat * bool)) :
  (exists r, In (i, r) l) ->
  (forall r, In (i, r) l -> r = b) ->
  settledAt i l = Some b.
Proof.
  induction l as [|[j r] l IH]; simpl; intros [r0 Hin] Hall; [easy|].
  destruct (Nat.eqb_spec i j) as [->|Hne].
  - f_equal. apply Hall. now left.
  - apply IH.
    + destruct Hin as [Hin|Hin]; [congruence|]. now exists r0.
    + intros r1 H1. apply Hall. now right.
Qed.

Lemma promiseAll_each (f : Message -> bool) (settled : list (nat * bool))
  (ims : list (nat * Message)) :
  (forall i m, In (i, m) ims -> settledAt i settled = Some (f m)) ->
  promiseAll (map fst ims) settled = Some (map f (map snd ims)).
Proof.
  induction ims as [|[i m] ims IH]; intro H; simpl; [reflexivity|].
  rewrite (H i m) by now left.
  rewrite IH; [reflexivity|].
  intros j x Hin. apply H. now right.
Qed.

Lemma in_settleAll (r b : bool) (i : nat) (ims : list (nat * Message)) :
  In (i, r) (settleAll b ims) <-> r = b /\ exists m, In (i, m) ims.
Proof.
  unfold settleAll. rewrite in_map_iff. split.
  - intros [[j m] [E Hin]]. simpl in E. inversion E; subst.
    split; [reflexivity|]. now exists m.
  - intros [-> [m Hin]]. now exists (i, m).
Qed.

(** Each promise of the batch settles, on [!row] as the first round
    found it. *)
Lemma settled_fresh (db db' : IDBPDatabase) (ims : list (nat * Message))
  (i : nat) (m : Message) :
  NoDup (map fst ims) ->
  In (i, m) ims ->
  settledAt i
    ((([] ++ settleAll false
               (filter (fun im => negb (freshAt db im)) ims)) ++ [])
      ++ settleAll true
           (filter (fun im => negb (winsAt db' im))
                   (filter (freshAt db) ims))
      ++ settleAll true
           (filter (winsAt db') (filter (freshAt db) ims)))
  = Some (Batch.fresh db m).
Proof.
  intros Hnd Hin.
  assert (Hsame : forall m', In (i, m') ims -> m' = m)
    by (intros m' H'; symmetry; now apply (indexed_functional ims i)).
  apply settledAt_only.
  - destruct (Batch.fresh db m) eqn:Hf.
    + destruct (Batch.wins db' m) eqn:Hw.
      * exists true. rewrite !in_app_iff. right. right.
        apply in_settleAll. split; [reflexivity|]. exists m.
        rewrite !filter_In. unfold winsAt, freshAt. simpl. auto.
      * exists true. rewrite !in_app_iff. right. left.
        apply in_settleAll. split; [reflexivity|]. exists m.
        rewrite !filter_In. unfold winsAt, freshAt. simpl.
        rewrite Hw. auto.
    + exists false. rewrite !in_app_iff. left. left. right.
      apply in_settleAll. split; [reflexivity|]. exists m.
      rewrite filter_In. unfold freshAt. simpl. rewrite Hf. auto.
  - intros r. rewrite !in_app_iff, !in_settleAll.
    intros [[[[]|[-> [m' H']]]|[]]|[[-> [m' H']]|[-> [m' H']]]];
      rewrite ?filter_In in H'; unfold freshAt, winsAt in H';
      simpl in H'.
    + destruct H' as [H1 H2]. rewrite (Hsame m' H1) in H2.
      now destruct (Batch.fresh db m).
    + destruct H' as [[H1 H2] _]. rewrite (Hsame m' H1) in H2. congruence.
    + destruct H' as [[H1 H2] _]. rewrite (Hsame m' H1) in H2. congruence.
Qed.

(** The call returns, and what it leaves is the four rounds. *)
Lemma storeMessages_rounds (messages : list Message) (db : IDBPDatabase) :
  storeMessages messages db
  = Some (Batch.commit messages db, Batch.results messages db).
Proof.
  unfold storeMessages.
  rewrite activate_indexed.
  set (ims := indexed 0 messages).
  assert (Hlen : length ims = length messages).
  { unfold ims. rewrite <- (length_map fst), indexed_fst.
    apply length_seq. }
  assert (HF : length (filter (freshAt db) ims) <= length ims)
    by apply filter_length_le.
  set (db2 := Batch.putLogs (map snd (filter (freshAt db) ims)) db).
  assert (HW : length (filter (winsAt db2) (filter (freshAt db) ims))
               <= length (filter (freshAt db) ims))
    by apply filter_length_le.
  rewrite run_round by (rewrite length_stoppedAt; lia).
  rewrite serve_LogGet, length_stoppedAt.
  rewrite run_round by (rewrite length_stoppedAt; lia).
  rewrite serve_LogPut, length_stoppedAt. fold db2.
  rewrite run_round by (rewrite length_stoppedAt; lia).
  rewrite serve_LatestGet, length_stoppedAt.
  rewrite run_round by (rewrite length_stoppedAt; lia).
  rewrite serve_LatestPut, length_stoppedAt.
  rewrite run_idle. cbn [tx_settled tx_db].
  rewrite <- (indexed_fst messages 0). fold ims.
  rewrite <- !app_assoc.
  rewrite (promiseAll_each (Batch.fresh db)).
  - unfold Batch.commit, Batch.results, Batch.winners, Batch.stored.
    assert (E0 : map snd ims = messages) by apply indexed_snd.
    assert (E1 : map snd (filter (freshAt db) ims)
                 = filter (Batch.fresh db) messages).
    { unfold freshAt. rewrite snd_filter. unfold ims.
      now rewrite indexed_snd. }
    assert (E2 : map snd (filter (winsAt db2) (filter (freshAt db) ims))
                 = filter (Batch.wins db) (filter (Batch.fresh db) messages)).
    { unfold winsAt. rewrite snd_filter, E1.
      apply filter_ext. intro m. unfold db2. apply wins_putLogs. }
    rewrite E2, E0. unfold db2. now rewrite E1.
  - intros i m Hin.
    rewrite !app_assoc.
    rewrite <- (app_assoc _ (settleAll true _) (settleAll true _)).
    apply settled_fresh; [|exact Hin].
    unfold ims. rewrite indexed_fst. apply seq_NoDup.
Qed.

End TxFacts.

(** ** One call of storeMessages *)

Section OneCall.
Import LocalIndexedDB.

Lemma get_putLogs_others (ts : string) (l : list Message) :
  forall db,
    ~ In ts (map timestamp l) ->
    Idb.get ts (message_log (Batch.putLogs l db)) = Idb.get ts (message_log db).
Proof.
  induction l as [|m l IH]; intros db Hnot; [reflexivity|].
  simpl in Hnot. cbn [Batch.putLogs fold_left].
  fold (Batch.putLogs l (putLog m db)).
  rewrite IH by tauto.
  simpl. apply get_put_other. tauto.
Qed.

(** Under a timestamp the batch writes, the log ends up holding the
    last message written there. *)
Lemma get_putLogs_written (ts : string) (l : list Message) :
  forall db,
    In ts (map timestamp l) ->
    exists kept,
      Idb.get ts (message_log (Batch.putLogs l db)) = Some kept
      /\ timestamp kept = ts
      /\ In kept l.
Proof.
  induction l as [|x l IH]; intros db Hin; [easy|].
  cbn [Batch.putLogs fold_left]. fold (Batch.putLogs l (putLog x db)).
  destruct (in_dec string_dec ts (map timestamp l)) as [Hl|Hl].
  - destruct (IH (putLog x db) Hl) as [kept [Hg [Ht Hk]]].
    exists kept. repeat split; auto. now right.
  - destruct Hin as [E|Hin]; [|contradiction].
    exists x. rewrite get_putLogs_others by exact Hl.
    simpl. rewrite <- E, get_put_same. repeat split. now left.
Qed.

Lemma get_putLatests_others (k : string) (l : list Message) :
  forall db,
    ~ In k (map latestMessageKey l) ->
    Idb.get k (message_latest (Batch.putLatests l db))
    = Idb.get k (message_latest db).
Proof.
  induction l as [|m l IH]; intros db Hnot; [reflexivity|].
  simpl in Hnot. cbn [Batch.putLatests fold_left].
  fold (Batch.putLatests l (putLatest m (latestMessageKey m) db)).
  rewrite IH by tauto.
  simpl. apply get_put_other. tauto.
Qed.

Lemma get_putLatests_written (w : Message) (l : list Message) :
  forall db,
    NoDup (map latestMessageKey l) ->
    In w l ->
    Idb.get (latestMessageKey w) (message_latest (Batch.putLatests l db))
    = Some w.
Proof.
  induction l as [|x l IH]; intros db Hnd Hin; [easy|].
  inversion Hnd as [|? ? Hx Hnd']; subst.
  cbn [Batch.putLatests fold_left].
  fold (Batch.putLatests l (putLatest x (latestMessageKey x) db)).
  destruct Hin as [->|Hin].
  - rewrite get_putLatests_others by exact Hx.
    simpl. apply get_put_same.
  - now apply IH.
Qed.

Lemma recordsUnder_absent {V : Type} (k : string) (s : objectStore V) :
  Idb.get k s = None -> recordsUnder k s = [].
Proof.
  induction s as [|[k' v'] s IH]; simpl; intro H; [reflexivity|].
  destruct (String.eqb_spec k' k) as [->|Hne].
  - now rewrite cmp_refl in H.
  - apply IH. destruct (cmp k k'); congruence.
Qed.

Lemma recordsUnder_put {V : Type} (k : string) (v : V) (s : objectStore V) :
  Idb.get k s = None -> recordsUnder k (put k v s) = [(k, v)].
Proof.
  induction s as [|[k' v'] s IH]; simpl; intro H.
  - now rewrite String.eqb_refl.
  - destruct (cmp k k') eqn:E; try discriminate.
    + cbn [recordsUnder filter fst]. rewrite String.eqb_refl.
      f_equal. apply (recordsUnder_absent k ((k', v') :: s)).
      simpl. now rewrite E.
    + cbn [recordsUnder filter fst].
      destruct (String.eqb_spec k' k) as [->|Hne].
      * now rewrite cmp_refl in E.
      * now apply IH.
Qed.

Lemma stored_skip (db : IDBPDatabase) (before after : list Message)
  (msg : Message) :
  Batch.fresh db msg = false ->
  Batch.stored db (before ++ msg :: after) = Batch.stored db (before ++ after).
Proof.
  intro H. unfold Batch.stored. rewrite !filter_app. simpl. now rewrite H.
Qed.

Lemma commit_skip (db : IDBPDatabase) (before after : list Message)
  (msg : Message) :
  Batch.fresh db msg = false ->
  Batch.commit (before ++ msg :: after) db = Batch.commit (before ++ after) db.
Proof.
  intro H. unfold Batch.commit, Batch.winners. now rewrite stored_skip.
Qed.

Lemma log_commit (messages : list Message) (db : IDBPDatabase) :
  message_log (Batch.commit messages db)
  = message_log (Batch.putLogs (Batch.stored db messages) db).
Proof. unfold Batch.commit. apply TxFacts.log_putLatests. Qed.

Lemma latest_putLatests_from (ws : list Message) :
  forall db1 db2,
    message_latest db1 = message_latest db2 ->
    message_latest (Batch.putLatests ws db1)
    = message_latest (Batch.putLatests ws db2).
Proof.
  induction ws as [|w ws IH]; intros db1 db2 E; [exact E|].
  cbn [Batch.putLatests fold_left].
  apply IH. simpl. now rewrite E.
Qed.

Lemma latest_commit (messages : list Message) (db : IDBPDatabase) :
  message_latest (Batch.commit messages db)
  = message_latest (Batch.putLatests (Batch.winners db messages) db).
Proof.
  unfold Batch.commit.
  apply latest_putLatests_from, TxFacts.latest_putLogs.
Qed.

End OneCall.

Section Claims_storeMessages.
Import LocalIndexedDB.

Lemma fresh_by_timestamp (db : IDBPDatabase) (a b : Message) :
  timestamp a = timestamp b -> Batch.fresh db a = Batch.fresh db b.
Proof. unfold Batch.fresh. now intros ->. Qed.

Lemma stored_timestamps_fresh (db : IDBPDatabase) (l : list Message)
  (msg : Message) :
  In (timestamp msg) (map timestamp (Batch.stored db l)) ->
  Batch.fresh db msg = true.
Proof.
  intro H. apply in_map_iff in H. destruct H as [y [E Hy]].
  apply filter_In in Hy. destruct Hy as [_ Hy].
  now rewrite <- (fresh_by_timestamp db y msg E).
Qed.

Lemma firstn_skipn_results (f : Message -> bool) (before after : list Message) :
  map f before ++ false :: map f after
  = firstn (length before) (map f (before ++ after))
    ++ false :: skipn (length before) (map f (before ++ after)).
Proof.
  rewrite map_app.
  rewrite <- (length_map f before) at 1 2.
  rewrite firstn_app, skipn_app, firstn_all, skipn_all, Nat.sub_diag.
  simpl. now rewrite app_nil_r.
Qed.



End Claims_storeMessages.

(** ** Calls in sequence and the latest entry *)

Section LatestEntry.
Import LocalIndexedDB.

(** Keeping some of the messages keeps their keys apart. *)
Lemma keys_apart_filter {K : Type} (key : Message -> K)
  (keep : Message -> bool) (batch : list Message)
  (Hapart : NoDup (map key batch)) :
  NoDup (map key (filter keep batch)).
Proof.
  induction batch as [|m batch IH]; simpl; [constructor|].
  inversion Hapart as [|? ? Hnot Hnd]; subst.
  destruct (keep m); simpl; [constructor|]; auto.
  intro Hin. apply Hnot.
  apply in_map_iff in Hin. destruct Hin as [y [E Hy]].
  apply filter_In in Hy. apply in_map_iff. exists y. tauto.
Qed.

Lemma NoDup_map_same {A B : Type} (f : A -> B) (l : list A) (a b : A) :
  NoDup (map f l) -> In a l -> In b l -> f a = f b -> a = b.
Proof.
  induction l as [|x l IH]; simpl; intros Hnd Ha Hb E; [easy|].
  inversion Hnd as [|? ? Hnot Hnd']; subst.
  destruct Ha as [->|Ha], Hb as [->|Hb]; auto.
  - exfalso. apply Hnot. rewrite E. now apply in_map.
  - exfalso. apply Hnot. rewrite <- E. now apply in_map.
Qed.

Lemma stored_results (db : IDBPDatabase) (messages : list Message) :
  map fst (filter snd (combine messages (Batch.results messages db)))
  = Batch.stored db messages.
Proof.
  unfold Batch.results, Batch.stored.
  induction messages as [|m l IH]; simpl; [reflexivity|].
  destruct (Batch.fresh db m); simpl; now rewrite IH.
Qed.

(** Later than an entry that is itself not earlier than [m]: not
    earlier than [m]. *)
Lemma ltb_false_trans (e w m : string) :
  ltb e m = false -> ltb e w = true -> ltb w m = false.
Proof.
  unfold ltb. intros Hem Hew.
  destruct (cmp e w) eqn:Eew; try discriminate.
  destruct (cmp w m) eqn:Ewm; try reflexivity.
  now rewrite (cmp_lt_trans e w m Eew Ewm) in Hem.
Qed.

(** One call whose messages write different cells keeps every stored
    message covered. *)
Lemma covered_commit (db : IDBPDatabase) (history messages : list Message) :
  NoDup (map latestMessageKey messages) ->
  coveredBy db history ->
  coveredBy (Batch.commit messages db)
            (history ++ Batch.stored db messages).
Proof.
  intros Hnd Hcov m Hin.
  rewrite latest_commit.
  assert (Hws : NoDup (map latestMessageKey (Batch.winners db messages))).
  { unfold Batch.winners, Batch.stored. now do 2 apply keys_apart_filter. }
  assert (Hsub : forall w, In w (Batch.winners db messages) ->
                           In w messages /\ Batch.wins db w = true).
  { intros w Hw. unfold Batch.winners, Batch.stored in Hw.
    rewrite !filter_In in Hw. tauto. }
  destruct (in_dec string_dec (latestMessageKey m)
              (map latestMessageKey (Batch.winners db messages)))
    as [Hk|Hk].
  - apply in_map_iff in Hk. destruct Hk as [w [Ek Hw]].
    exists w. rewrite <- Ek.
    rewrite get_putLatests_written by assumption.
    split; [reflexivity|].
    destruct (Hsub w Hw) as [Hwm Hwins].
    apply in_app_or in Hin. destruct Hin as [Hin|Hin].
    + destruct (Hcov m Hin) as [e [Hg He]].
      apply (ltb_false_trans (timestamp e)); [exact He|].
      unfold Batch.wins in Hwins. rewrite Ek, Hg in Hwins. exact Hwins.
    + apply filter_In in Hin.
      rewrite (NoDup_map_same latestMessageKey messages w m); try tauto.
      apply ltb_irrefl.
  - rewrite get_putLatests_others by exact Hk.
    apply in_app_or in Hin. destruct Hin as [Hin|Hin]; [now apply Hcov|].
    assert (Hlost : Batch.wins db m = false).
    { destruct (Batch.wins db m) eqn:E; [|reflexivity].
      exfalso. apply Hk. apply in_map.
      unfold Batch.winners. apply filter_In. tauto. }
    unfold Batch.wins in Hlost.
    destruct (Idb.get (latestMessageKey m) (message_latest db)) as [e|];
      [|discriminate].
    now exists e.
Qed.

Lemma covered_calls (calls : list (list Message)) :
  forall db history db',
    Forall apart calls ->
    coveredBy db history ->
    storeCalls calls db = Some db' ->
    coveredBy db' (history ++ ingested calls db).
Proof.
  induction calls as [|messages later IH]; intros db history db' Hap Hcov Hrun.
  - simpl in *. injection Hrun as <-. now rewrite app_nil_r.
  - inversion Hap as [|? ? [_ Hkeys] Hap']; subst.
    cbn [storeCalls ingested] in *.
    rewrite TxFacts.storeMessages_rounds in *.
    rewrite stored_results, app_assoc.
    apply (IH (Batch.commit messages db)); auto.
    now apply covered_commit.
Qed.

(** What C1 says of the latest entry does hold as long as no call is
    given two messages with one timestamp or for one cell. *)
Lemma latestDominates_apart (calls : list (list Message)) (db : IDBPDatabase) :
  Forall apart calls -> latestDominates calls db.
Proof.
  intros Hap db' Hrun m e Hin Hget.
  assert (Hnone : coveredBy db []) by (intros x []).
  destruct (covered_calls calls db [] db' Hap Hnone Hrun m Hin)
    as [e' [Hg He]].
  congruence.
Qed.


Lemma equal_timestamp_keeps_entry (m e : Message) (db : IDBPDatabase) :
  Idb.get (latestMessageKey m) (message_latest db) = Some e ->
  timestamp e = timestamp m ->
  Batch.wins db m = false.
Proof.
  intros Hg Ht. unfold Batch.wins. rewrite Hg, Ht. apply ltb_irrefl.
Qed.

(** Two messages of one call under one new timestamp are both reported
    stored, where the second would be a duplicate if the first were
    dealt with before it. *)
Lemma batch_mates_under_one_timestamp :
  exists db',
    storeMessages [yodaAge900Message; yodaAge900Message] Idb.empty
    = Some (db', [true; true])
    /\ recordsUnder (timestamp yodaAge900Message) (message_log db')
       = [(timestamp yodaAge900Message, yodaAge900Message)]
    /\ snd (InTurn.storeMessages [yodaAge900Message; yodaAge900Message]
                                 Idb.empty)
       = [true; false].
Proof.
  eexists. rewrite TxFacts.storeMessages_rounds.
  split; [reflexivity|]. split; reflexivity.
Qed.

(** C1.  The latest entry of a cell is meant to be at least as late as
    every message stored for the cell, and to give way to a strictly
    later message only.  One call given the later message first and the
    earlier one second stores both and leaves the earlier one as the
    entry: every activation reads the entry before any activation
    writes it, so the seventh answer writes the later message and the
    eighth writes the earlier one over it.  The same two messages in
    two calls leave the later one. *)
Theorem latest_entry_lost_within_one_call :
  (exists db',
      storeMessages [yodaAge950Message; yodaAge900Message] Idb.empty
      = Some (db', [true; true])
      /\ Idb.get (latestMessageKey yodaAge950Message) (message_latest db')
         = Some yodaAge900Message
      /\ ltb (timestamp yodaAge900Message) (timestamp yodaAge950Message)
         = true)
  /\ (let t := mkTx Idb.empty
                    (activate 0 [yodaAge950Message; yodaAge900Message]) [] in
      Idb.get (latestMessageKey yodaAge950Message)
              (message_latest (tx_db (advance 7 t)))
      = Some yodaAge950Message
      /\ Idb.get (latestMessageKey yodaAge950Message)
                 (message_latest (tx_db (advance 8 t)))
         = Some yodaAge900Message)
  /\ ~ latestDominates [[yodaAge950Message; yodaAge900Message]] Idb.empty
  /\ latestDominates [[yodaAge950Message]; [yodaAge900Message]] Idb.empty.
Proof.
  split; [|split; [|split]].
  - eexists. rewrite TxFacts.storeMessages_rounds.
    split; [reflexivity|]. split; reflexivity.
  - split; reflexivity.
  - intro H.
    specialize (H (Batch.commit [yodaAge950Message; yodaAge900Message]
                                Idb.empty)
                  eq_refl yodaAge950Message yodaAge900Message).
    discriminate H; [now left | reflexivity].
  - apply latestDominates_apart.
    repeat constructor; simpl; tauto.
Qed.

Lemma putLogs_putLatest (l : list Message) (w : Message) (k : string) :
  forall db,
    Batch.putLogs l (putLatest w k db) = putLatest w k (Batch.putLogs l db).
Proof.
  induction l as [|x l IH]; intro db; [reflexivity|].
  cbn [Batch.putLogs fold_left].
  change (putLog x (putLatest w k db)) with (putLatest w k (putLog x db)).
  apply IH.
Qed.

Lemma fresh_putLog_other (db : IDBPDatabase) (m x : Message) :
  timestamp m <> timestamp x ->
  Batch.fresh (putLog m db) x = Batch.fresh db x.
Proof.
  intro H. unfold Batch.fresh. simpl. now rewrite get_put_other.
Qed.

Lemma wins_putLatest_other (db : IDBPDatabase) (m x : Message) :
  latestMessageKey m <> latestMessageKey x ->
  Batch.wins (putLatest m (latestMessageKey m) db) x = Batch.wins db x.
Proof.
  intro H. unfold Batch.wins. simpl. now rewrite get_put_other.
Qed.

(** The state one message leaves judges the later messages of an apart
    batch as the state before it did. *)
Lemma storeOne_same_verdicts (m : Message) (rest : list Message)
  (db : IDBPDatabase) :
  ~ In (timestamp m) (map timestamp rest) ->
  ~ In (latestMessageKey m) (map latestMessageKey rest) ->
  forall x, In x rest ->
    Batch.fresh (fst (InTurn.storeOne m db)) x = Batch.fresh db x
    /\ Batch.wins (fst (InTurn.storeOne m db)) x = Batch.wins db x.
Proof.
  intros Hts Hkey x Hx.
  assert (Ht : timestamp m <> timestamp x)
    by (intro E; apply Hts; rewrite E; now apply in_map).
  assert (Hk : latestMessageKey m <> latestMessageKey x)
    by (intro E; apply Hkey; rewrite E; now apply in_map).
  unfold InTurn.storeOne.
  destruct (Batch.fresh db m); [|auto].
  destruct (Batch.wins (putLog m db) m); cbn [fst].
  - split.
    + unfold Batch.fresh. simpl. now rewrite get_put_other.
    + now rewrite wins_putLatest_other.
  - split; [now apply fresh_putLog_other|reflexivity].
Qed.


End LatestEntry.

(** ** queryMessages *)

Section QueryMessages.
Import LocalIndexedDB.

(** The loop visits the records of the range among those ahead of the
    cursor, in the cursor's direction, and stops. *)
Lemma drain_seek (since : string) (ahead : list (string * Message)) :
  forall fuel results,
    length ahead <= fuel ->
    drain fuel (seek since ahead) results
    = Some (results ++ map snd (filter (inRange since) ahead)).
Proof.
  induction ahead as [|[k v] ahead IH]; intros fuel results Hle.
  - destruct fuel; simpl; now rewrite app_nil_r.
  - cbn [seek filter]. unfold inRange at 1. cbn [fst].
    destruct (inLowerBound since k).
    + destruct fuel as [|fuel]; [simpl in Hle; lia|].
      cbn [drain continue cursor_lower cursor_ahead cursor_value].
      rewrite IH by (simpl in Hle; lia).
      cbn [map snd]. now rewrite <- app_assoc.
    + apply IH. simpl in Hle. lia.
Qed.

Lemma queryMessages_visits (since : string) (db : IDBPDatabase) :
  queryMessages since db
  = Some (map snd (filter (inRange since) (rev (message_log db)))).
Proof.
  unfold queryMessages, openCursorPrev.
  rewrite drain_seek by (rewrite length_rev; lia).
  reflexivity.
Qed.

Lemma descending_app (l1 l2 : list Message) :
  descending l1 ->
  descending l2 ->
  (forall a b, In a l1 -> In b l2 -> cmp (timestamp b) (timestamp a) = Lt) ->
  descending (l1 ++ l2).
Proof.
  induction l1 as [|m l1 IH]; simpl; intros H1 H2 H12; [exact H2|].
  destruct H1 as [Hm H1]. split.
  - apply Forall_app. split; [exact Hm|].
    apply Forall_forall. intros b Hb. apply H12; auto.
  - apply IH; auto.
Qed.

Lemma descending_visits (since : string) (log : objectStore Message) :
  logShape log ->
  descending (map snd (filter (inRange since) (rev log))).
Proof.
  intros [Hasc Hkey].
  induction log as [|[k v] log IH]; [exact I|].
  destruct Hasc as [Hk Hasc].
  inversion Hkey as [|? ? Hkv Hkey']; subst. simpl in Hkv.
  cbn [rev]. rewrite filter_app, map_app.
  apply descending_app.
  - now apply IH.
  - cbn [filter]. destruct (inRange since (k, v)); simpl; auto.
  - intros a b Ha Hb.
    assert (Eb : b = v).
    { cbn [filter] in Hb. destruct (inRange since (k, v)); simpl in Hb;
        intuition. }
    subst b.
    apply in_map_iff in Ha. destruct Ha as [[ka a'] [Ea Ha]].
    simpl in Ea. subst a'.
    apply filter_In in Ha. destruct Ha as [Ha _].
    apply in_rev in Ha.
    rewrite Forall_forall in Hk, Hkey'.
    specialize (Hk _ Ha). specialize (Hkey' _ Ha). simpl in Hk, Hkey'.
    now rewrite <- Hkv, <- Hkey'.
Qed.

Lemma In_put {V : Type} (k : string) (v : V) (s : objectStore V)
  (r : string * V) :
  In r (put k v s) -> r = (k, v) \/ In r s.
Proof.
  induction s as [|[k' v'] s IH]; simpl.
  - intuition.
  - destruct (cmp k k'); simpl; intuition.
Qed.

Lemma ascending_put {V : Type} (k : string) (v : V) (s : objectStore V) :
  ascending s -> ascending (put k v s).
Proof.
  induction s as [|[k' v'] s IH]; simpl; [auto|].
  intros [Hk Hs].
  destruct (cmp k k') eqn:E; simpl.
  - apply cmp_eq in E. subst k'. auto.
  - split; [|auto]. constructor; [exact E|].
    eapply Forall_impl; [|exact Hk].
    intros r Hr. now apply (cmp_lt_trans k k').
  - split; [|auto].
    apply Forall_forall. intros r Hr.
    apply In_put in Hr. destruct Hr as [->|Hr].
    + simpl. now apply cmp_gt_lt.
    + rewrite Forall_forall in Hk. auto.
Qed.

(** Every call of [storeMessages] leaves the log in shape. *)
Lemma logShape_storeMessages (messages : list Message) (db : IDBPDatabase) :
  logShape (message_log db) ->
  exists db' results,
    storeMessages messages db = Some (db', results)
    /\ logShape (message_log db').
Proof.
  intro H. rewrite TxFacts.storeMessages_rounds.
  do 2 eexists. split; [reflexivity|].
  rewrite log_commit.
  generalize (Batch.stored db messages) as l. intro l.
  revert db H. induction l as [|m l IH]; intros db H; [exact H|].
  cbn [Batch.putLogs fold_left]. apply IH.
  destruct H as [Hasc Hkey]. split; simpl.
  - now apply ascending_put.
  - apply Forall_forall. intros r Hr.
    apply In_put in Hr. destruct Hr as [->|Hr]; [reflexivity|].
    rewrite Forall_forall in Hkey. auto.
Qed.

(** The log stays in shape over any calls. *)
Lemma logShape_storeCalls (calls : list (list Message)) :
  forall db db',
    logShape (message_log db) ->
    storeCalls calls db = Some db' ->
    logShape (message_log db').
Proof.
  induction calls as [|messages later IH]; intros db db' Hshape Hrun.
  - simpl in Hrun. now injection Hrun as <-.
  - cbn [storeCalls] in Hrun.
    destruct (logShape_storeMessages messages db Hshape)
      as (db1 & results & E & Hshape1).
    rewrite E in Hrun. now apply (IH db1).
Qed.

(** C5.  On a log as IndexedDB keeps it, [queryMessages(since)]
    returns, and returns exactly the logged messages whose timestamp is
    [since] or later, each once, from the latest down. *)
Theorem queryMessages_since_newest_first (since : string) (db : IDBPDatabase) :
  logShape (message_log db) ->
  exists results,
    queryMessages since db = Some results
    /\ (forall m,
           In m results
           <-> In m (getAll (message_log db))
               /\ inLowerBound since (timestamp m) = true)
    /\ descending results.
Proof.
  intro Hshape.
  exists (map snd (filter (inRange since) (rev (message_log db)))).
  split; [apply queryMessages_visits|].
  split; [|now apply descending_visits].
  destruct Hshape as [_ Hkey]. rewrite Forall_forall in Hkey.
  intro m. unfold getAll. rewrite !in_map_iff. split.
  - intros [[k v] [E Hin]]. simpl in E. subst v.
    apply filter_In in Hin. destruct Hin as [Hin Hr].
    apply in_rev in Hin. split.
    + now exists (k, m).
    + unfold inRange in Hr. simpl in Hr.
      specialize (Hkey _ Hin). simpl in Hkey. now rewrite <- Hkey.
  - intros [[[k v] [E Hin]] Hr]. simpl in E. subst v.
    exists (k, m). split; [reflexivity|].
    apply filter_In. split; [now apply in_rev; rewrite rev_involutive|].
    unfold inRange. simpl.
    specialize (Hkey _ Hin). simpl in Hkey. now rewrite Hkey.
Qed.

Lemma queryMessages_since_newest_first_witness :
  logShape (message_log yodaLog)
  /\ exists results,
      queryMessages "" yodaLog = Some results
      /\ (forall m,
             In m results
             <-> In m (getAll (message_log yodaLog))
                 /\ inLowerBound "" (timestamp m) = true)
      /\ descending results.
Proof.
  assert (H : logShape (message_log yodaLog)).
  { split; simpl; repeat constructor. }
  split; [exact H|].
  exact (queryMessages_since_newest_first "" yodaLog H).
Defined.

End QueryMessages.

(** ** Own properties *)

Section OwnProperties.
Context {V : Type}.
Implicit Types (o : list (string * V)) (k : string) (v : V).

Lemma lookup_assign_same k v o : lookup k (assign k v o) = Some v.
Proof.
  induction o as [|[k' v'] o IH]; simpl.
  - now rewrite String.eqb_refl.
  - destruct (String.eqb k k') eqn:E; simpl.
    + now rewrite String.eqb_refl.
    + now rewrite E.
Qed.

Lemma lookup_assign_other k k' v o :
  k <> k' -> lookup k' (assign k v o) = lookup k' o.
Proof.
  intro Hne.
  assert (Hk : String.eqb k' k = false) by (apply String.eqb_neq; congruence).
  induction o as [|[k1 v1] o IH]; simpl.
  - now rewrite Hk.
  - destruct (String.eqb_spec k k1) as [->|H1]; simpl.
    + now rewrite Hk.
    + now rewrite IH.
Qed.

Lemma lookup_In k v o : lookup k o = Some v -> In (k, v) o.
Proof.
  induction o as [|[k' v'] o IH]; simpl; [discriminate|].
  destruct (String.eqb_spec k k') as [->|Hne]; intro H.
  - left. congruence.
  - right. auto.
Qed.

Lemma lookup_None k o : lookup k o = None <-> ~ In k (keys o).
Proof.
  induction o as [|[k' v'] o IH]; simpl; [tauto|].
  destruct (String.eqb_spec k k') as [->|Hne].
  - split; [discriminate|]. intro H. exfalso. apply H. now left.
  - rewrite IH. split; intro H; [|tauto].
    intros [E|Hin]; [congruence|tauto].
Qed.

Lemma In_lookup k v o : distinctKeys o -> In (k, v) o -> lookup k o = Some v.
Proof.
  unfold distinctKeys.
  induction o as [|[k' v'] o IH]; simpl; intros Hnd Hin; [easy|].
  inversion Hnd as [|? ? Hnot Hnd']; subst.
  destruct Hin as [E|Hin].
  - injection E as -> ->. now rewrite String.eqb_refl.
  - destruct (String.eqb_spec k k') as [->|Hne]; [|auto].
    exfalso. apply Hnot. change k' with (fst (k', v)). now apply in_map.
Qed.

Lemma has_own_In k o : has_own k o = true <-> In k (keys o).
Proof.
  unfold has_own. destruct (lookup k o) eqn:E.
  - split; [|reflexivity]. intros _.
    apply lookup_In in E. change k with (fst (k, v)). now apply in_map.
  - apply lookup_None in E. split; [discriminate|tauto].
Qed.

Lemma In_assign k v o (r : string * V) :
  In r (assign k v o) -> r = (k, v) \/ In r o.
Proof.
  induction o as [|[k' v'] o IH]; simpl.
  - intuition.
  - destruct (String.eqb k k'); simpl; intuition.
Qed.

Lemma keys_assign k v o :
  keys (assign k v o) = if has_own k o then keys o else keys o ++ [k].
Proof.
  unfold has_own.
  induction o as [|[k' v'] o IH]; simpl; [reflexivity|].
  destruct (String.eqb_spec k k') as [->|Hne]; simpl; [reflexivity|].
  rewrite IH. now destruct (lookup k o).
Qed.

Lemma distinctKeys_assign k v o :
  distinctKeys o -> distinctKeys (assign k v o).
Proof.
  unfold distinctKeys. intro H. rewrite keys_assign.
  destruct (has_own k o) eqn:E; [exact H|].
  assert (Hnot : ~ In k (keys o)).
  { intro Hin. apply has_own_In in Hin. congruence. }
  clear E. induction (keys o) as [|x l IH]; simpl.
  - constructor; [easy|constructor].
  - inversion H as [|? ? Hx Hl]; subst.
    constructor.
    + rewrite in_app_iff. simpl in *. intuition.
    + apply IH; simpl in *; intuition.
Qed.

Lemma Forall_assign (P : string * V -> Prop) k v o :
  P (k, v) -> Forall P o -> Forall P (assign k v o).
Proof.
  intros Hv Ho. apply Forall_forall. intros r Hr.
  apply In_assign in Hr. destruct Hr as [->|Hr]; [exact Hv|].
  rewrite Forall_forall in Ho. auto.
Qed.

End OwnProperties.

(** ** applyChanges *)

Section ApplyChanges.
Import LocalIndexedDB.

Lemma cellAt_consolidateOne (changes : Changes) (msg : Message)
  (d r c : string) :
  cellAt (consolidateOne changes msg) d r c
  = if sameCell d r c msg then Some (value msg) else cellAt changes d r c.
Proof.
  unfold cellAt, consolidateOne, sameCell.
  destruct (String.eqb_spec d (dataset msg)) as [->|Hd]; simpl.
  - rewrite lookup_assign_same.
    destruct (String.eqb_spec r (row msg)) as [->|Hr]; simpl.
    + rewrite lookup_assign_same.
      destruct (String.eqb_spec c (column msg)) as [->|Hc].
      * apply lookup_assign_same.
      * rewrite lookup_assign_other by congruence.
        destruct (lookup (dataset msg) changes) as [rows|]; [|reflexivity].
        now destruct (lookup (row msg) rows).
    + rewrite lookup_assign_other by congruence.
      now destruct (lookup (dataset msg) changes).
  - now rewrite lookup_assign_other by congruence.
Qed.

Lemma cellAt_fold (messages : list Message) (d r c : string) :
  forall changes,
    cellAt (fold_left consolidateOne messages changes) d r c
    = match lastFor d r c messages with
      | Some v => Some v
      | None => cellAt changes d r c
      end.
Proof.
  induction messages as [|msg rest IH]; intro changes; [reflexivity|].
  cbn [fold_left lastFor]. rewrite IH, cellAt_consolidateOne.
  now destruct (lastFor d r c rest), (sameCell d r c msg).
Qed.

Lemma nested_consolidateOne (changes : Changes) (msg : Message) :
  nested changes -> nested (consolidateOne changes msg).
Proof.
  intros [Hd Hrows]. unfold consolidateOne.
  assert (Hds : forall rows, lookup (dataset msg) changes = Some rows ->
            distinctKeys rows /\ Forall (fun r => distinctKeys (snd r)) rows).
  { intros rows E. apply lookup_In in E.
    rewrite Forall_forall in Hrows. exact (Hrows _ E). }
  split; [now apply distinctKeys_assign|].
  apply Forall_assign; [|exact Hrows]. cbn [snd].
  destruct (lookup (dataset msg) changes) as [rows|].
  - destruct (Hds rows eq_refl) as [H1 H2].
    split; [now apply distinctKeys_assign|].
    apply Forall_assign; [|exact H2]. cbn [snd].
    apply distinctKeys_assign.
    destruct (lookup (row msg) rows) as [cols|] eqn:E.
    + apply lookup_In in E. rewrite Forall_forall in H2. exact (H2 _ E).
    + constructor.
  - split; [apply (distinctKeys_assign (row msg) _ [])|]; try constructor.
    + cbn [snd]. apply (distinctKeys_assign (column msg) _ []). constructor.
    + constructor.
Qed.

Lemma nested_consolidate (messages : list Message) :
  nested (consolidate messages).
Proof.
  unfold consolidate.
  assert (H : nested []) by (split; constructor).
  revert H. generalize (@nil (string * list (string * obj))) as changes.
  induction messages as [|msg rest IH]; intros changes H; [exact H|].
  cbn [fold_left]. apply IH. now apply nested_consolidateOne.
Qed.

Lemma forEach_recording {World : Type} (changes : Changes)
  (cs : list (ChangeListener World)) :
  forall i w calls,
    fold_left (fun w c => c changes w) (recordingAll i cs) (w, calls)
    = (fold_left (fun w c => c changes w) cs w,
       calls ++ map (fun j => (j, changes)) (seq i (length cs))).
Proof.
  induction cs as [|c cs IH]; intros i w calls; simpl.
  - now rewrite app_nil_r.
  - unfold recording at 1. rewrite IH. cbn [fst snd].
    now rewrite <- app_assoc.
Qed.


End ApplyChanges.

(** ** The accessor: what is refused *)

Section Refused.

Lemma mentions_last (before name : string) : mentions name (before ++ name).
Proof.
  exists before, EmptyString.
  f_equal. induction name as [|a name IH]; simpl; congruence.
Qed.

Lemma append_assoc (a b c : string) :
  ((a ++ b) ++ c)%string = (a ++ b ++ c)%string.
Proof. induction a as [|x a IH]; simpl; congruence. Qed.

Lemma mentions_quoted (before name after : string) :
  mentions name (before ++ quoted name ++ after).
Proof.
  unfold quoted.
  exists (before ++ String (ascii_of_nat 34) EmptyString)%string,
         (String (ascii_of_nat 34) EmptyString ++ after)%string.
  now rewrite !append_assoc.
Qed.

Lemma mentions_quoted_last (before name : string) :
  mentions name (before ++ quoted name).
Proof.
  unfold quoted.
  exists (before ++ String (ascii_of_nat 34) EmptyString)%string,
         (String (ascii_of_nat 34) EmptyString).
  now rewrite !append_assoc.
Qed.

(** C7.  Assigning to the root, deleting from the root, and
    [defineProperty] on the root, on a dataset and on a row each throw a
    TypeError; the message names the root, the dataset, or the dataset
    and the row; the mirror and the calls of [send] are as they were. *)
Theorem forbidden_operations_throw_and_change_nothing
  (ds id : string) (s : TheStore) :
  (exists message,
      DBProxy.set s = (Throw (TypeError message), s)
      /\ mentions "DB" message)
  /\ (exists message,
         DBProxy.deleteProperty s = (Throw (TypeError message), s)
         /\ mentions "DB" message)
  /\ (exists message,
         DBProxy.defineProperty s = (Throw (TypeError message), s)
         /\ mentions "DB" message)
  /\ (exists message,
         DatasetProxy.defineProperty ds s = (Throw (TypeError message), s)
         /\ mentions ds message)
  /\ (exists message,
         RowProxy.defineProperty ds id s = (Throw (TypeError message), s)
         /\ mentions ds message /\ mentions id message).
Proof.
  repeat split.
  - eexists. split; [reflexivity|].
    now exists "cannot set on ", EmptyString.
  - eexists. split; [reflexivity|].
    now exists "cannot delete on ", EmptyString.
  - eexists. split; [reflexivity|].
    now exists "cannot defineProperty on ", EmptyString.
  - eexists. split; [reflexivity|]. apply mentions_quoted_last.
  - eexists. split; [reflexivity|]. split.
    + apply mentions_quoted.
    + rewrite <- !append_assoc. apply mentions_last.
Qed.

End Refused.

(** ** The accessor: rows of the mirror *)

Section Rows.

Lemma rowAt_assign_same (m : Mem) (ds id : string) (d : Dataset) (r : obj) :
  rowAt (assign ds (assign id r d) m) ds id = Some r.
Proof. unfold rowAt. now rewrite !lookup_assign_same. Qed.

Lemma rowAt_assign_other (m : Mem) (ds id ds' id' : string) (r : obj) :
  (ds', id') <> (ds, id) ->
  rowAt (assign ds (assign id r (datasetOf ds m)) m) ds' id' = rowAt m ds' id'.
Proof.
  intro Hne. unfold rowAt, datasetOf.
  destruct (String.eqb_spec ds ds') as [<-|Hd].
  - rewrite lookup_assign_same.
    rewrite lookup_assign_other by congruence.
    now destruct (lookup ds m).
  - now rewrite lookup_assign_other.
Qed.

Lemma rowAt_vivified (ds : string) (m : Mem) (ds' id' : string) :
  rowAt (vivified ds m) ds' id' = rowAt m ds' id'.
Proof.
  unfold vivified, rowAt.
  destruct (lookup ds m) eqn:E; [reflexivity|].
  destruct (String.eqb_spec ds ds') as [<-|Hd].
  - now rewrite lookup_assign_same, E.
  - now rewrite lookup_assign_other.
Qed.

Lemma getDataset_vivified (ds : string) (s : TheStore) :
  DatasetProxy.getDataset ds s
  = (datasetOf ds (mem s), setMem (vivified ds (mem s)) s).
Proof.
  unfold DatasetProxy.getDataset, datasetOf, vivified, setMem.
  destruct (lookup ds (mem s)); [|reflexivity].
  now destruct s.
Qed.

Lemma assign_vivified (ds : string) (d : Dataset) (m : Mem) :
  assign ds d (vivified ds m) = assign ds d m.
Proof.
  unfold vivified. destruct (lookup ds m) eqn:E; [reflexivity|].
  induction m as [|[k v] m IH]; simpl.
  - now rewrite String.eqb_refl.
  - simpl in E. destruct (String.eqb ds k) eqn:Ek; [discriminate|].
    simpl. rewrite Ek. now rewrite IH.
Qed.


End Rows.

(** ** The accessor: a dataset-level write *)

Section DatasetWrite.

Lemma existingRow_datasetOf (ds id : string) (m : Mem) :
  match lookup id (datasetOf ds m) with
  | Some r => r
  | None => []
  end = existingRow ds id m.
Proof.
  unfold existingRow, rowAt, datasetOf.
  now destruct (lookup ds m).
Qed.

(** A write of a structured object whose [id], if it has one, is the
    row's: the batch goes out with the mirror still holding the old
    row, then the row is replaced. *)
Lemma set_structured (ds id : string) (props : obj) (s : TheStore) :
  structured (Object props) ->
  lookup "id" props = None \/ lookup "id" props = Some (Str id) ->
  DatasetProxy.set ds id (Object props) s
  = (Ok true,
     mkStore
       (assign ds (assign id (withId id props) (datasetOf ds (mem s))) (mem s))
       (sent s
        ++ [mkDispatch
              (difference ds id (existingRow ds id (mem s)) (withId id props))
              (vivified ds (mem s))])).
Proof.
  intros Hst Hid. unfold DatasetProxy.set. cbn [typeof].
  unfold structured in Hst. rewrite Hst. cbv beta iota zeta.
  assert (Hval : withId id props
                 = match lookup "id" props with
                   | Some _ => props
                   | None => assign "id" (Str id) props
                   end) by reflexivity.
  destruct Hid as [E|E]; rewrite E in *; rewrite ?String.eqb_refl;
    rewrite getDataset_vivified; cbn [setMem send mem sent];
    rewrite existingRow_datasetOf, assign_vivified, Hval; reflexivity.
Qed.

Lemma in_changed (ds id : string) (existing val : obj) (o : Outgoing) :
  In o (flat_map (DatasetProxy.changed ds id existing) val)
  <-> out_dataset o = ds /\ out_row o = id
      /\ In (out_column o, out_value o) val
      /\ dequal (prop existing (out_column o)) (out_value o) = false.
Proof.
  rewrite in_flat_map. unfold DatasetProxy.changed. split.
  - intros [[k v] [Hin Ho]]. cbn [fst snd] in Ho.
    destruct (dequal (prop existing k) v) eqn:E; [easy|].
    destruct Ho as [<-|[]]. simpl. auto.
  - intros (<- & <- & Hin & E). exists (out_column o, out_value o).
    split; [exact Hin|]. cbn [fst snd]. rewrite E.
    left. now destruct o.
Qed.

Lemma in_dropped (ds id : string) (existing val : obj) (o : Outgoing) :
  In o (flat_map (DatasetProxy.dropped ds id val) (keys existing))
  <-> out_dataset o = ds /\ out_row o = id
      /\ out_value o = Undefined
      /\ In (out_column o) (keys existing)
      /\ ~ In (out_column o) (keys val).
Proof.
  rewrite in_flat_map. unfold DatasetProxy.dropped. split.
  - intros [k [Hin Ho]].
    destruct (has_own k val) eqn:E; [easy|].
    destruct Ho as [<-|[]]. simpl. repeat split; auto.
    intro H. apply has_own_In in H. congruence.
  - intros (<- & <- & Hv & Hin & Hnot). exists (out_column o).
    split; [exact Hin|].
    destruct (has_own (out_column o) val) eqn:E.
    + exfalso. apply Hnot. now apply has_own_In.
    + left. destruct o. simpl in *. now subst.
Qed.

(** At most one message per column of the new value. *)
Lemma changed_columns (ds id : string) (existing val : obj) :
  distinctKeys val ->
  NoDup (map out_column (flat_map (DatasetProxy.changed ds id existing) val)).
Proof.
  unfold distinctKeys.
  induction val as [|[k v] val IH]; simpl; intro H; [constructor|].
  inversion H as [|? ? Hk Hval]; subst.
  rewrite map_app. unfold DatasetProxy.changed at 1. cbn [fst snd].
  destruct (dequal (prop existing k) v); simpl; [auto|].
  constructor; [|auto].
  intro Hin. apply in_map_iff in Hin. destruct Hin as [o [Eo Ho]].
  apply in_changed in Ho. destruct Ho as (_ & _ & Ho & _).
  apply Hk. rewrite <- Eo.
  change (out_column o) with (fst (out_column o, out_value o)).
  now apply in_map.
Qed.

(** At most one message per column of the old row. *)
Lemma dropped_columns (ds id : string) (val : obj) (ks : list string) :
  NoDup ks ->
  NoDup (map out_column (flat_map (DatasetProxy.dropped ds id val) ks)).
Proof.
  induction ks as [|k ks IH]; simpl; intro H; [constructor|].
  inversion H as [|? ? Hk Hks]; subst.
  rewrite map_app. unfold DatasetProxy.dropped at 1.
  destruct (has_own k val); simpl; [auto|].
  constructor; [|auto].
  intro Hin. apply in_map_iff in Hin. destruct Hin as [o [Eo Ho]].
  apply in_flat_map in Ho. destruct Ho as [k' [Hk' Ho]].
  unfold DatasetProxy.dropped in Ho.
  destruct (has_own k' val); [easy|].
  destruct Ho as [<-|[]]. simpl in Eo. congruence.
Qed.

Lemma difference_columns (ds id : string) (existing val : obj) :
  distinctKeys existing ->
  distinctKeys val ->
  NoDup (map out_column (difference ds id existing val)).
Proof.
  intros He Hv. unfold difference. rewrite map_app.
  apply NoDup_app.
  - now apply changed_columns.
  - now apply dropped_columns.
  - intros c Hc Hd.
    apply in_map_iff in Hc. destruct Hc as [o [Eo Ho]].
    apply in_map_iff in Hd. destruct Hd as [o' [Eo' Ho']].
    apply in_changed in Ho. apply in_dropped in Ho'.
    destruct Ho as (_ & _ & Ho & _). destruct Ho' as (_ & _ & _ & _ & Hnot).
    apply Hnot. rewrite Eo', <- Eo.
    change (out_column o) with (fst (out_column o, out_value o)).
    now apply in_map.
Qed.

Lemma distinctKeys_withId (id : string) (props : obj) :
  distinctKeys props -> distinctKeys (withId id props).
Proof.
  unfold withId. destruct (lookup "id" props); [auto|].
  apply distinctKeys_assign.
Qed.

Lemma nested_row (m : Mem) (ds id : string) (r : obj) :
  nested m -> rowAt m ds id = Some r -> distinctKeys r.
Proof.
  intros [_ Hm] H. unfold rowAt in H.
  destruct (lookup ds m) as [d|] eqn:Ed; [|discriminate].
  apply lookup_In in Ed. apply lookup_In in H.
  rewrite Forall_forall in Hm. destruct (Hm _ Ed) as [_ Hd].
  rewrite Forall_forall in Hd. exact (Hd _ H).
Qed.

Lemma nested_existingRow (m : Mem) (ds id : string) :
  nested m -> distinctKeys (existingRow ds id m).
Proof.
  intro H. unfold existingRow.
  destruct (rowAt m ds id) eqn:E; [now apply (nested_row m ds id)|].
  constructor.
Qed.

End DatasetWrite.

Section DatasetWriteClaim.

Lemma lastBatch_snoc (m : Mem) (earlier : list Dispatch) (d : Dispatch) :
  lastBatch (mkStore m (earlier ++ [d])) = batch d.
Proof. unfold lastBatch. cbn [sent]. now rewrite rev_unit. Qed.

(** What [structuredClone] hands back has the value of what it was
    given. *)
Lemma structuredClone_same :
  forall v v', structuredClone v = Some v' -> v' = v.
Proof.
  fix IH 1.
  intros [ | | b | n | x | f | props] v' H; simpl in H; try congruence.
  match type of H with
  | option_map _ ?c = _ => destruct c as [copied|] eqn:E
  end; simpl in H; [|discriminate].
  injection H as <-. f_equal.
  revert copied E.
  induction props as [|[k x] props IHprops]; intros copied E.
  - congruence.
  - destruct (structuredClone x) as [x'|] eqn:Ex; [|discriminate].
    match type of E with
    | match ?c with _ => _ end = _ => destruct c as [rest|] eqn:Er
    end; [|discriminate].
    injection E as <-.
    rewrite (IH x x' Ex), (IHprops rest eq_refl). reflexivity.
Qed.



End DatasetWriteClaim.

(** ** The accessor: delete and rewrite *)

Section DeleteRewrite.

Lemma deleteProperty_tombstones (ds id : string) (s : TheStore) :
  DatasetProxy.deleteProperty ds id s
  = (Ok true,
     mkStore
       (assign ds (assign id (tombstoneRow ds id (mem s))
                          (datasetOf ds (mem s))) (mem s))
       (sent s
        ++ [mkDispatch [mkOutgoing ds id "tombstone" (Boolean true)]
                       (mem s)])).
Proof.
  unfold DatasetProxy.deleteProperty.
  rewrite getDataset_vivified. cbn [send mem sent setMem].
  rewrite assign_vivified.
  unfold tombstoneRow, rowAt, datasetOf.
  now destruct (lookup ds (mem s)).
Qed.

Lemma tombstoned_tombstoneRow (ds id : string) (m : Mem) :
  tombstoned (tombstoneRow ds id m) = true.
Proof.
  unfold tombstoned, tombstoneRow, prop.
  destruct (rowAt m ds id); [|reflexivity].
  now rewrite lookup_assign_same.
Qed.

Lemma tombstoned_tombstoneRow_own (ds id : string) (m : Mem) :
  has_own "tombstone" (tombstoneRow ds id m) = true.
Proof.
  unfold has_own, tombstoneRow.
  destruct (rowAt m ds id); [|reflexivity].
  now rewrite lookup_assign_same.
Qed.

Lemma nested_dataset (m : Mem) (ds : string) :
  nested m ->
  distinctKeys (datasetOf ds m)
  /\ Forall (fun r => distinctKeys (snd r)) (datasetOf ds m).
Proof.
  intros [_ Hm]. unfold datasetOf.
  destruct (lookup ds m) as [d|] eqn:E.
  - apply lookup_In in E. rewrite Forall_forall in Hm. exact (Hm _ E).
  - split; constructor.
Qed.

Lemma nested_assign_row (m : Mem) (ds id : string) (r : obj) :
  nested m ->
  distinctKeys r ->
  nested (assign ds (assign id r (datasetOf ds m)) m).
Proof.
  intros Hm Hr. destruct (nested_dataset m ds Hm) as [Hd Hrows].
  destruct Hm as [Hkeys Hall].
  split; [now apply distinctKeys_assign|].
  apply Forall_assign; [|exact Hall]. cbn [snd]. split.
  - now apply distinctKeys_assign.
  - now apply Forall_assign.
Qed.

(** The dataset lists a row exactly when it has it. *)
Lemma ownKeys_has (ds id : string) (t : TheStore) :
  nested (mem t) ->
  In id (fst (DatasetProxy.ownKeys ds t)) <-> DatasetProxy.has ds id t = true.
Proof.
  intro Hm. destruct (nested_dataset (mem t) ds Hm) as [Hd _].
  unfold DatasetProxy.ownKeys. rewrite getDataset_vivified. cbn [fst].
  unfold DatasetProxy.has, rowAt, datasetOf in *.
  destruct (lookup ds (mem t)) as [d|]; [|simpl; intuition discriminate].
  unfold keys. rewrite in_map_iff. split.
  - intros [[k r] [E Hin]]. simpl in E. subst k.
    apply filter_In in Hin. destruct Hin as [Hin Hr].
    now rewrite (In_lookup id r d Hd Hin).
  - destruct (lookup id d) as [r|] eqn:E; [|discriminate].
    intro Hr. exists (id, r). split; [reflexivity|].
    apply filter_In. split; [now apply lookup_In|exact Hr].
Qed.

Lemma ObjectKeys_all {A : Type} (ks : list string)
  (trap : string -> result (option (PropertyDescriptor A))) :
  (forall k, In k ks ->
     exists d, trap k = Ok (Some d) /\ pd_enumerable d = true) ->
  ObjectKeys ks trap = Ok ks.
Proof.
  induction ks as [|k ks IH]; intro H; [reflexivity|].
  cbn [ObjectKeys].
  destruct (H k (or_introl eq_refl)) as [d [-> Hd]].
  rewrite IH by (intros k' Hk'; apply H; now right).
  now rewrite Hd.
Qed.

(** Enumerating a dataset gives what its [ownKeys] lists. *)
Lemma enumerate_ownKeys (ds : string) (s : TheStore) :
  nested (mem s) ->
  fst (DatasetProxy.enumerate ds s) = Ok (fst (DatasetProxy.ownKeys ds s)).
Proof.
  intro Hm. unfold DatasetProxy.enumerate.
  destruct (DatasetProxy.ownKeys ds s) as [ks s1] eqn:E. cbn [fst].
  apply ObjectKeys_all. intros k Hk.
  assert (Es1 : s1 = setMem (vivified ds (mem s)) s).
  { unfold DatasetProxy.ownKeys in E. rewrite getDataset_vivified in E.
    now injection E as _ <-. }
  assert (Hhas : DatasetProxy.has ds k s = true).
  { apply ownKeys_has; [exact Hm|]. now rewrite E. }
  assert (Hhas1 : DatasetProxy.has ds k s1 = true).
  { rewrite Es1. unfold DatasetProxy.has in *. cbn [mem setMem].
    now rewrite rowAt_vivified. }
  unfold DatasetProxy.getOwnPropertyDescriptor, DatasetProxy.get.
  rewrite Hhas1. eexists. split; reflexivity.
Qed.

(** The writes of the accessor leave the mirror three levels of
    mappings. *)
Lemma nested_after_writes (ds id p : string) (v : JsValue) (props : obj)
  (s : TheStore) :
  nested (mem s) ->
  nested (mem (snd (DatasetProxy.deleteProperty ds id s)))
  /\ nested (mem (snd (RowProxy.set ds id p v s)))
  /\ (structured (Object props) ->
      distinctKeys props ->
      lookup "id" props = None \/ lookup "id" props = Some (Str id) ->
      nested (mem (snd (DatasetProxy.set ds id (Object props) s)))).
Proof.
  intro Hm. split; [|split].
  - rewrite deleteProperty_tombstones. cbn [snd mem].
    apply nested_assign_row; [exact Hm|].
    unfold tombstoneRow. destruct (rowAt (mem s) ds id) eqn:E.
    + apply distinctKeys_assign. now apply (nested_row (mem s) ds id).
    + repeat constructor. simpl. tauto.
  - unfold RowProxy.set. cbn [snd mem setMem send].
    fold (datasetOf ds (mem s)).
    apply nested_assign_row; [exact Hm|].
    apply distinctKeys_assign.
    destruct (lookup id (datasetOf ds (mem s))) as [r|] eqn:E.
    + destruct (nested_dataset (mem s) ds Hm) as [_ Hrows].
      apply lookup_In in E. rewrite Forall_forall in Hrows.
      exact (Hrows _ E).
    + repeat constructor. simpl. tauto.
  - intros Hst Hprops Hid. rewrite set_structured by assumption.
    cbn [snd mem].
    apply nested_assign_row; [exact Hm|now apply distinctKeys_withId].
Qed.

Lemma has_row (ds id : string) (t : TheStore) (r : obj) :
  rowAt (mem t) ds id = Some r ->
  DatasetProxy.has ds id t = negb (tombstoned r).
Proof. unfold DatasetProxy.has. now intros ->. Qed.



End DeleteRewrite.

(** ** Rows and their id *)

Section RowIds.

Lemma rowsCarryId_assign (m : Mem) (ds id : string) (r : obj) :
  rowsCarryId m ->
  lookup "id" r = Some (Str id) ->
  rowsCarryId (assign ds (assign id r (datasetOf ds m)) m).
Proof.
  intros Hm Hr ds' id' r' H.
  destruct (string_dec ds' ds) as [->|Hd].
  - destruct (string_dec id' id) as [->|Hi].
    + rewrite rowAt_assign_same in H. congruence.
    + rewrite rowAt_assign_other in H by congruence. now apply (Hm ds).
  - rewrite rowAt_assign_other in H by congruence. now apply (Hm ds').
Qed.

(** A dataset-level write that returns has put a row with the right
    [id] in the mirror. *)
Lemma set_returned (ds id : string) (val : JsValue) (s s' : TheStore) :
  DatasetProxy.set ds id val s = (Ok true, s') ->
  exists val',
    lookup "id" val' = Some (Str id)
    /\ mem s' = assign ds (assign id val' (datasetOf ds (mem s))) (mem s).
Proof.
  unfold DatasetProxy.set.
  destruct (typeof val); try discriminate.
  destruct (structuredClone val) as [[ | | | | | |props]|]; try discriminate.
  destruct (lookup "id" props) as [valueID|] eqn:E.
  - destruct valueID as [ | | | |x| | ]; try discriminate.
    destruct (String.eqb_spec id x) as [<-|Hne]; [|discriminate].
    rewrite getDataset_vivified. cbn [setMem send mem sent].
    rewrite assign_vivified. intro H. injection H as <-.
    exists props. split; [exact E|reflexivity].
  - rewrite getDataset_vivified. cbn [setMem send mem sent].
    rewrite assign_vivified. intro H. injection H as <-.
    exists (assign "id" (Str id) props).
    split; [apply lookup_assign_same|reflexivity].
Qed.

Lemma RowProxy_set_mem (ds id p : string) (v : JsValue) (s : TheStore) :
  mem (snd (RowProxy.set ds id p v s))
  = assign ds
      (assign id
         (assign p v match rowAt (mem s) ds id with
                     | Some r => r
                     | None => [("id", Str id)]
                     end)
         (datasetOf ds (mem s)))
      (mem s).
Proof.
  unfold RowProxy.set, rowAt, datasetOf. cbn [snd mem setMem send].
  now destruct (lookup ds (mem s)).
Qed.

Lemma loadOne_mem (m : Mem) (msg : Message) :
  loadOne m msg
  = assign (dataset msg)
      (assign (row msg)
         (assign (column msg) (value msg)
            match rowAt m (dataset msg) (row msg) with
            | Some r => r
            | None => [("id", Str (row msg))]
            end)
         (datasetOf (dataset msg) m))
      m.
Proof.
  unfold loadOne, rowAt, datasetOf.
  now destruct (lookup (dataset msg) m).
Qed.

(** A column other than [id], or [id] itself with the row's key, goes
    into a row that carries its [id], or into a new one. *)
Lemma id_after_column_write (m : Mem) (ds id p : string) (v : JsValue) :
  rowsCarryId m ->
  p <> "id" \/ v = Str id ->
  lookup "id" (assign p v match rowAt m ds id with
                          | Some r => r
                          | None => [("id", Str id)]
                          end)
  = Some (Str id).
Proof.
  intros Hm Hp.
  destruct (string_dec p "id") as [->|Hne].
  - destruct Hp as [Hp| ->]; [congruence|]. apply lookup_assign_same.
  - rewrite lookup_assign_other by exact Hne.
    destruct (rowAt m ds id) eqn:E; [now apply (Hm ds)|reflexivity].
Qed.


(** Deleting a row the mirror does not have leaves a row with no [id]
    at all. *)
Lemma delete_of_absent_row_has_no_id :
  rowAt (mem (snd (DatasetProxy.deleteProperty "jedi" "yoda" freshStore)))
        "jedi" "yoda"
  = Some [("tombstone", Boolean true)].
Proof. reflexivity. Qed.



End RowIds.

(** ** Enumerating a row *)

Section Enumerate.
Variable inherited : string -> JsValue.

Lemma descriptor_of_own (ds id p : string) (v : JsValue) (s : TheStore)
  (r : obj) :
  rowAt (mem s) ds id = Some r ->
  lookup p r = Some v ->
  isPrimitive v = true ->
  RowProxy.getOwnPropertyDescriptor inherited ds id p s
  = if truthy v then Ok (Some (mkDescriptor v true true true)) else Ok None.
Proof.
  intros Hr Hp Hv.
  unfold RowProxy.getOwnPropertyDescriptor, RowProxy.get.
  now rewrite Hr, Hp, Hv.
Qed.

Lemma ObjectKeys_primitive (ds id : string) (s : TheStore) (r : obj)
  (shown : list (string * JsValue)) :
  rowAt (mem s) ds id = Some r ->
  (forall p v,
      In (p, v) shown -> lookup p r = Some v /\ isPrimitive v = true) ->
  ObjectKeys (keys shown)
             (fun p => RowProxy.getOwnPropertyDescriptor inherited ds id p s)
  = Ok (keys (filter (fun kv => truthy (snd kv)) shown)).
Proof.
  intros Hr. induction shown as [|[p v] shown IH]; intro Hall; [reflexivity|].
  cbn [keys map fst ObjectKeys filter snd].
  destruct (Hall p v (or_introl eq_refl)) as [Hp Hv].
  rewrite (descriptor_of_own ds id p v s r Hr Hp Hv).
  fold (keys shown).
  rewrite IH by (intros q w Hq; apply Hall; now right).
  now destruct (truthy v).
Qed.

(** What enumerating a row of primitives does give: the columns whose
    value holds in a condition. *)
Lemma enumerate_truthy_columns (ds id : string) (s : TheStore) (r : obj) :
  rowAt (mem s) ds id = Some r ->
  distinctKeys r ->
  Forall (fun kv => isPrimitive (snd kv) = true) r ->
  RowProxy.enumerate inherited ds id s
  = Ok (keys (filter (fun kv => truthy (snd kv)) r)).
Proof.
  intros Hr Hkeys Hprim.
  unfold RowProxy.enumerate, RowProxy.ownKeys. rewrite Hr.
  apply (ObjectKeys_primitive ds id s r r Hr).
  intros p v Hin. split; [now apply In_lookup|].
  rewrite Forall_forall in Hprim. exact (Hprim _ Hin).
Qed.

(** A column that holds an object stops the enumeration with the
    error of [get]. *)
Lemma enumerate_throws_on_object :
  exists message,
    RowProxy.enumerate inherited "jedi" "yoda"
      (mkStore [("jedi", [("yoda", [("id", Str "yoda"); ("tags", Object [])])])]
               [])
    = Throw (Error message).
Proof. eexists. reflexivity. Qed.

(** C9.  Enumerating a row is meant to give its own column names
    whatever the values.  For the row with [id], [name] and an [age] of
    zero, the row owns the three columns and has [age], and enumerating
    it gives [id] and [name] only: the descriptor trap hands back
    nothing for a column whose value does not hold in a condition. *)
Theorem enumeration_leaves_out_falsy_columns :
  RowProxy.ownKeys "jedi" "yoda" newbornStore = ["id"; "name"; "age"]
  /\ RowProxy.has "jedi" "yoda" "age" newbornStore = true
  /\ RowProxy.get inherited "jedi" "yoda" "age" newbornStore = Ok (Number 0)
  /\ RowProxy.getOwnPropertyDescriptor inherited "jedi" "yoda" "age"
                                       newbornStore = Ok None
  /\ RowProxy.enumerate inherited "jedi" "yoda" newbornStore
     = Ok ["id"; "name"].
Proof. repeat split; reflexivity. Qed.

End Enumerate.

(** * Further properties of the adapter *)

Section StoreMessagesMore.
Import LocalIndexedDB.

Lemma meta_putLogs (l : list Message) :
  forall db, message_meta (Batch.putLogs l db) = message_meta db.
Proof.
  induction l as [|m l IH]; intro db; [reflexivity|].
  cbn [Batch.putLogs fold_left]. fold (Batch.putLogs l (putLog m db)).
  now rewrite IH.
Qed.

Lemma meta_putLatests (l : list Message) :
  forall db, message_meta (Batch.putLatests l db) = message_meta db.
Proof.
  induction l as [|m l IH]; intro db; [reflexivity|].
  cbn [Batch.putLatests fold_left].
  fold (Batch.putLatests l (putLatest m (latestMessageKey m) db)).
  now rewrite IH.
Qed.




Lemma storeCalls_returns (calls : list (list Message)) :
  forall db, exists db', storeCalls calls db = Some db'.
Proof.
  induction calls as [|messages later IH]; intro db.
  - now exists db.
  - cbn [storeCalls]. rewrite TxFacts.storeMessages_rounds. apply IH.
Qed.







End StoreMessagesMore.

Section AdapterMore.
Import LocalIndexedDB.


Lemma inLowerBound_empty (k : string) : inLowerBound EmptyString k = true.
Proof. now destruct k. Qed.

Lemma filter_all {A : Type} (keep : A -> bool) (items : list A) :
  (forall a, In a items -> keep a = true) -> filter keep items = items.
Proof.
  induction items as [|a items IH]; intro H; [reflexivity|].
  simpl. rewrite (H a) by now left.
  f_equal. apply IH. intros b Hb. apply H. now right.
Qed.

(** X8.  [queryMessages] returns on every log: it gives the messages of
    the records from [since] on, walking the log from its last record
    to its first; with the empty cursor that is the whole log, last
    record first. *)
Theorem queryMessages_walks_the_log_backwards
  (since : string) (db : IDBPDatabase) :
  queryMessages since db
  = Some (map snd (filter (inRange since) (rev (message_log db))))
  /\ queryMessages EmptyString db = Some (rev (getAll (message_log db))).
Proof.
  split; [apply queryMessages_visits|].
  rewrite queryMessages_visits. f_equal.
  rewrite filter_all by (intros r _; apply inLowerBound_empty).
  unfold getAll. apply map_rev.
Qed.

(** X9.  The meta store gives back what was set: [get] after [set]
    under the same key is the value set, under another key it is what
    it was; a second [set] replaces the first; the log and the latest
    store are not touched. *)
Theorem meta_get_after_set (key key' val val2 : string) (db : IDBPDatabase) :
  LocalIndexedDB.get key' (LocalIndexedDB.set key val db)
  = (if String.eqb key key'
     then Some val
     else LocalIndexedDB.get key' db)
  /\ LocalIndexedDB.get key
       (LocalIndexedDB.set key val2 (LocalIndexedDB.set key val db))
     = Some val2
  /\ message_log (LocalIndexedDB.set key val db) = message_log db
  /\ message_latest (LocalIndexedDB.set key val db) = message_latest db.
Proof.
  unfold LocalIndexedDB.get, LocalIndexedDB.set. cbn [message_meta].
  split; [|split; [|split]]; try reflexivity.
  - destruct (String.eqb_spec key key') as [<-|Hne].
    + apply get_put_same.
    + now apply get_put_other.
  - apply get_put_same.
Qed.

Lemma colon_splits (a b x y : string) :
  colonFree a = true ->
  colonFree b = true ->
  (a ++ String ":" x)%string = (b ++ String ":" y)%string ->
  a = b /\ x = y.
Proof.
  revert b. induction a as [|c a IH]; intros [|d b] Ha Hb E; simpl in *.
  - injection E as <-. now split.
  - injection E as <- _. discriminate Hb.
  - injection E as -> _. discriminate Ha.
  - injection E as <- E.
    apply andb_true_iff in Ha, Hb.
    destruct (IH b) as [<- <-]; tauto.
Qed.

(** X10.  Cells whose dataset names and row ids hold no colon have
    keys of their own: two messages with the same [latestMessageKey]
    are for the same dataset, row and column. *)
Theorem latestMessageKey_tells_cells_apart (a b : Message) :
  colonFree (dataset a) = true ->
  colonFree (row a) = true ->
  colonFree (dataset b) = true ->
  colonFree (row b) = true ->
  latestMessageKey a = latestMessageKey b ->
  dataset a = dataset b /\ row a = row b /\ column a = column b.
Proof.
  intros Hda Hra Hdb Hrb E. unfold latestMessageKey in E.
  destruct (colon_splits _ _ _ _ Hda Hdb E) as [Ed E1].
  destruct (colon_splits _ _ _ _ Hra Hrb E1) as [Er Ec].
  auto.
Qed.

Lemma latestMessageKey_tells_cells_apart_witness :
  (dataset yodaAge900Message = dataset yodaAge950Message
   /\ row yodaAge900Message = row yodaAge950Message
   /\ column yodaAge900Message = column yodaAge950Message)
  /\ latestMessageKey (mkMessage "1" "people" "123:age" "unit" Null)
     = latestMessageKey (mkMessage "2" "people" "123" "age:unit" Null).
Proof.
  split; [|reflexivity].
  apply latestMessageKey_tells_cells_apart; reflexivity.
Defined.

End AdapterMore.

(** * Further properties of the projectors *)

Section Projectors.
Import LocalIndexedDB.

Lemma syncDatasetMem_folds (changes : Changes) (m : Mem) :
  syncDatasetMem changes m = fold_left (mergeDataset changes) (keys changes) m.
Proof. reflexivity. Qed.

Lemma lookup_spread (c : string) (cols : obj) :
  distinctKeys cols ->
  forall r : obj,
    lookup c (spread r cols)
    = match lookup c cols with
      | Some v => Some v
      | None => lookup c r
      end.
Proof.
  unfold distinctKeys, spread.
  induction cols as [|[k v] cols IH]; intros Hnd r; [reflexivity|].
  inversion Hnd as [|? ? Hk Hcols]; subst.
  cbn [fold_left fst snd lookup]. rewrite IH by exact Hcols.
  destruct (String.eqb_spec c k) as [->|Hne].
  - apply lookup_None in Hk. rewrite Hk. apply lookup_assign_same.
  - rewrite lookup_assign_other by congruence. reflexivity.
Qed.

Lemma mergeRow_other (rows : list (string * obj)) (d : Dataset)
  (id id' : string) :
  id <> id' -> lookup id' (mergeRow rows d id) = lookup id' d.
Proof. intro H. unfold mergeRow. now apply lookup_assign_other. Qed.

Lemma mergeRows_untouched (rows : list (string * obj)) (id : string)
  (ids : list string) :
  forall d,
    ~ In id ids ->
    lookup id (fold_left (mergeRow rows) ids d) = lookup id d.
Proof.
  induction ids as [|i ids IH]; intros d Hnot; [reflexivity|].
  cbn [fold_left]. rewrite IH by (simpl in Hnot; tauto).
  apply mergeRow_other. simpl in Hnot. tauto.
Qed.

Lemma mergeRows_touched (rows : list (string * obj)) (id : string)
  (ids : list string) :
  forall d,
    NoDup ids ->
    In id ids ->
    lookup id (fold_left (mergeRow rows) ids d)
    = Some (spread match lookup id d with
                   | Some r => r
                   | None => [("id", Str id)]
                   end
                   match lookup id rows with
                   | Some cols => cols
                   | None => []
                   end).
Proof.
  induction ids as [|i ids IH]; intros d Hnd Hin; [easy|].
  inversion Hnd as [|? ? Hi Hids]; subst.
  cbn [fold_left].
  destruct (string_dec i id) as [->|Hne].
  - rewrite mergeRows_untouched by exact Hi.
    unfold mergeRow. rewrite lookup_assign_same.
    now destruct (lookup id d).
  - destruct Hin as [E|Hin]; [congruence|].
    rewrite IH by assumption.
    now rewrite mergeRow_other.
Qed.

Lemma mergeDatasets_untouched (changes : Changes) (ds : string)
  (names : list string) :
  forall m,
    ~ In ds names ->
    lookup ds (fold_left (mergeDataset changes) names m) = lookup ds m.
Proof.
  induction names as [|n names IH]; intros m Hnot; [reflexivity|].
  cbn [fold_left]. rewrite IH by (simpl in Hnot; tauto).
  unfold mergeDataset. apply lookup_assign_other. simpl in Hnot. tauto.
Qed.

Lemma mergeDatasets_touched (changes : Changes) (ds : string)
  (names : list string) :
  forall m,
    NoDup names ->
    In ds names ->
    lookup ds (fold_left (mergeDataset changes) names m)
    = Some (fold_left
              (mergeRow match lookup ds changes with
                        | Some rows => rows
                        | None => []
                        end)
              (keys match lookup ds changes with
                    | Some rows => rows
                    | None => []
                    end)
              (datasetOf ds m)).
Proof.
  induction names as [|n names IH]; intros m Hnd Hin; [easy|].
  inversion Hnd as [|? ? Hn Hnames]; subst.
  cbn [fold_left].
  destruct (string_dec n ds) as [->|Hne].
  - rewrite mergeDatasets_untouched by exact Hn.
    unfold mergeDataset. now rewrite lookup_assign_same.
  - destruct Hin as [E|Hin]; [congruence|].
    rewrite IH by assumption.
    unfold datasetOf, mergeDataset.
    now rewrite lookup_assign_other.
Qed.

Lemma key_of_lookup {V : Type} (k : string) (v : V) (o : list (string * V)) :
  lookup k o = Some v -> In k (keys o).
Proof.
  intro H. apply lookup_In in H.
  change k with (fst (k, v)). now apply in_map.
Qed.

Lemma cellAt_rowAt (m : Mem) (d r c : string) :
  cellAt m d r c
  = match rowAt m d r with
    | Some r0 => lookup c r0
    | None => None
    end.
Proof.
  unfold cellAt, rowAt, Mem, Dataset in *.
  now destruct (lookup d m).
Qed.

(** The row of the mirror after [syncDatasetMem]. *)
Lemma rowAt_syncDatasetMem (changes : Changes) (m : Mem) (ds id : string) :
  nested changes ->
  rowAt (syncDatasetMem changes m) ds id
  = match rowAt changes ds id with
    | Some cols => Some (spread (baseRow m ds id) cols)
    | None => rowAt m ds id
    end.
Proof.
  intros [Hkeys Hall]. rewrite syncDatasetMem_folds.
  unfold rowAt at 1 2. unfold Mem, Dataset, Changes in *.
  destruct (lookup ds changes) as [rows|] eqn:Ed.
  - rewrite mergeDatasets_touched;
      [|exact Hkeys|now apply (key_of_lookup ds rows)].
    rewrite Ed.
    assert (Hrows : distinctKeys rows).
    { apply lookup_In in Ed. rewrite Forall_forall in Hall.
      exact (proj1 (Hall _ Ed)). }
    destruct (lookup id rows) as [cols|] eqn:Ei.
    + rewrite mergeRows_touched;
        [|exact Hrows|now apply (key_of_lookup id cols)].
      rewrite Ei. unfold baseRow, rowAt, datasetOf, Mem, Dataset in *.
      now destruct (lookup ds m).
    + rewrite mergeRows_untouched by now apply lookup_None.
      unfold rowAt, datasetOf, Mem, Dataset in *.
      now destruct (lookup ds m).
  - rewrite mergeDatasets_untouched by now apply lookup_None.
    reflexivity.
Qed.

Lemma cellAt_syncDatasetMem (changes : Changes) (m : Mem) (ds id c : string) :
  nested changes ->
  cellAt (syncDatasetMem changes m) ds id c
  = match cellAt changes ds id c with
    | Some v => Some v
    | None =>
        match rowAt changes ds id, rowAt m ds id with
        | Some _, None => if String.eqb c "id" then Some (Str id) else None
        | _, _ => cellAt m ds id c
        end
    end.
Proof.
  intro Hn.
  rewrite !cellAt_rowAt, rowAt_syncDatasetMem by exact Hn.
  destruct (rowAt changes ds id) as [cols|] eqn:E; [|reflexivity].
  assert (Hcols : distinctKeys cols) by now apply (nested_row changes ds id).
  rewrite lookup_spread by exact Hcols.
  destruct (lookup c cols); [reflexivity|].
  unfold baseRow. destruct (rowAt m ds id); [reflexivity|].
  simpl. now destruct (String.eqb c "id").
Qed.



(** One message of the replay. *)
Lemma rowAt_loadOne (m : Mem) (msg : Message) (d r : string) :
  rowAt (loadOne m msg) d r
  = if sameRow d r msg
    then Some (assign (column msg) (value msg)
                      (baseRow m (dataset msg) (row msg)))
    else rowAt m d r.
Proof.
  rewrite loadOne_mem. unfold sameRow, baseRow.
  destruct (String.eqb_spec d (dataset msg)) as [->|Hd];
    [destruct (String.eqb_spec r (row msg)) as [->|Hr]|]; simpl.
  - apply rowAt_assign_same.
  - apply rowAt_assign_other. congruence.
  - apply rowAt_assign_other. congruence.
Qed.

Lemma sameCell_sameRow (d r c : string) (msg : Message) :
  sameCell d r c msg = sameRow d r msg && String.eqb c (column msg).
Proof. reflexivity. Qed.

Lemma cellAt_load (messages : list Message) (d r c : string) :
  forall m,
    cellAt (fold_left loadOne messages m) d r c = replayed m messages d r c.
Proof.
  induction messages as [|msg rest IH]; intro m.
  - unfold replayed. cbn [fold_left lastFor touched existsb andb].
    rewrite cellAt_rowAt. now destruct (rowAt m d r).
  - cbn [fold_left]. rewrite IH. unfold replayed.
    cbn [lastFor touched existsb].
    destruct (lastFor d r c rest) as [v|]; [reflexivity|].
    rewrite rowAt_loadOne, sameCell_sameRow.
    destruct (sameRow d r msg) eqn:Erow; cbn [andb orb]; [|reflexivity].
    apply andb_prop in Erow. destruct Erow as [Ed Er].
    apply String.eqb_eq in Ed, Er. subst d r.
    destruct (String.eqb_spec c (column msg)) as [->|Hc].
    + apply lookup_assign_same.
    + rewrite lookup_assign_other by congruence.
      unfold baseRow. destruct (rowAt m (dataset msg) (row msg));
        [reflexivity|].
      simpl. now destruct (String.eqb c "id").
Qed.

Lemma hasRow_consolidateOne (changes : Changes) (msg : Message)
  (d r : string) :
  hasRow (consolidateOne changes msg) d r
  = sameRow d r msg || hasRow changes d r.
Proof.
  unfold hasRow, sameRow.
  change (consolidateOne changes msg)
    with (assign (dataset msg)
            (assign (row msg)
               (assign (column msg) (value msg)
                  match lookup (row msg) (datasetOf (dataset msg) changes) with
                  | Some r0 => r0
                  | None => []
                  end)
               (datasetOf (dataset msg) changes))
            changes).
  destruct (String.eqb_spec d (dataset msg)) as [->|Hd];
    [destruct (String.eqb_spec r (row msg)) as [->|Hr]|]; simpl.
  - now rewrite rowAt_assign_same.
  - rewrite rowAt_assign_other; [reflexivity|congruence].
  - rewrite rowAt_assign_other; [reflexivity|congruence].
Qed.

Lemma hasRow_fold (messages : list Message) (d r : string) :
  forall changes,
    hasRow (fold_left consolidateOne messages changes) d r
    = touched d r messages || hasRow changes d r.
Proof.
  induction messages as [|msg rest IH]; intro changes; [reflexivity|].
  cbn [fold_left]. rewrite IH, hasRow_consolidateOne.
  unfold touched. cbn [existsb].
  now destruct (existsb (sameRow d r) rest), (sameRow d r msg),
    (hasRow changes d r).
Qed.

Lemma cellAt_sync (messages : list Message) (m : Mem) (d r c : string) :
  cellAt (syncDatasetMem (consolidate messages) m) d r c
  = replayed m messages d r c.
Proof.
  rewrite cellAt_syncDatasetMem by apply nested_consolidate.
  unfold replayed, consolidate. rewrite cellAt_fold.
  destruct (lastFor d r c messages) as [v|]; [reflexivity|].
  pose proof (hasRow_fold messages d r []) as H.
  unfold hasRow in H. cbn [rowAt lookup] in H.
  replace (cellAt [] d r c) with (@None JsValue) by reflexivity.
  rewrite orb_false_r in H. rewrite (cellAt_rowAt m).
  destruct (rowAt (fold_left consolidateOne messages []) d r);
    rewrite <- H; now destruct (rowAt m d r).
Qed.


Lemma assign_twice {V : Type} (k : string) (v w : V) (o : list (string * V)) :
  assign k v (assign k w o) = assign k v o.
Proof.
  induction o as [|[k' v'] o IH]; simpl.
  - now rewrite String.eqb_refl.
  - destruct (String.eqb k k') eqn:E; simpl.
    + now rewrite String.eqb_refl.
    + now rewrite E, IH.
Qed.

Lemma syncDatasetMem_one_cell (ds id p : string) (v : JsValue) (m : Mem) :
  syncDatasetMem [(ds, [(id, [(p, v)])])] m
  = assign ds (assign id (assign p v (baseRow m ds id)) (datasetOf ds m)) m.
Proof.
  unfold syncDatasetMem, baseRow, rowAt, datasetOf, Mem, Dataset in *.
  cbn [keys map fst fold_left lookup snd].
  rewrite !String.eqb_refl. cbn [keys map fst fold_left lookup snd].
  rewrite !String.eqb_refl. unfold spread. cbn [fold_left fst snd].
  unfold Mem, Dataset, obj in *.
  destruct (lookup ds m) as [d0|]; [|reflexivity].
  now destruct (lookup id d0).
Qed.


End Projectors.

(** * Further properties of the accessor *)

Section AccessorMore.

Lemma set_not_cloned (ds id : string) (props : obj) (s : TheStore) :
  structuredClone (Object props) = None ->
  DatasetProxy.set ds id (Object props) s = (Throw DataCloneError, s).
Proof.
  intro E. unfold DatasetProxy.set. cbn [typeof]. now rewrite E.
Qed.

Lemma set_id_mismatch (ds id : string) (props : obj) (valueID : JsValue)
  (s : TheStore) :
  structured (Object props) ->
  lookup "id" props = Some valueID ->
  valueID <> Str id ->
  DatasetProxy.set ds id (Object props) s
  = (Throw (Error
       ("id mismatch in dataset " ++ quoted ds
        ++ " with row id " ++ quoted id
        ++ " and valud id " ++ toText valueID)%string), s).
Proof.
  intros Hst Eid Hne. unfold DatasetProxy.set. cbn [typeof].
  unfold structured in Hst. rewrite Hst. cbv beta iota zeta. rewrite Eid.
  destruct valueID as [ | | b | n | x | f | ps]; try reflexivity.
  destruct (String.eqb_spec id x) as [->|Hx]; [congruence|reflexivity].
Qed.

Lemma mentions_both (before ds between id rest : string) :
  mentions ds (before ++ quoted ds ++ between ++ quoted id ++ rest)
  /\ mentions id (before ++ quoted ds ++ between ++ quoted id ++ rest).
Proof.
  split; [apply mentions_quoted|].
  replace (before ++ quoted ds ++ between ++ quoted id ++ rest)%string
    with ((before ++ quoted ds ++ between) ++ quoted id ++ rest)%string
    by now rewrite !append_assoc.
  apply mentions_quoted.
Qed.

Lemma string_app_nil (a : string) : (a ++ EmptyString)%string = a.
Proof. induction a as [|x a IH]; simpl; congruence. Qed.


Lemma JsValue_nested_ind (P : JsValue -> Prop) :
  P Undefined -> P Null ->
  (forall b, P (Boolean b)) -> (forall n, P (Number n)) ->
  (forall x, P (Str x)) -> (forall f, P (Function f)) ->
  (forall ps, Forall (fun kv => P (snd kv)) ps -> P (Object ps)) ->
  forall v, P v.
Proof.
  intros HU HN HB HZ HS HF HO. fix IH 1.
  intros [ | | b | n | x | f | ps];
    [exact HU|exact HN|apply HB|apply HZ|apply HS|apply HF|].
  apply HO. induction ps as [|[k x] ps IHps]; constructor.
  - apply IH.
  - exact IHps.
Qed.

Lemma wellKeyed_Object (ps : obj) :
  wellKeyed (Object ps)
  <-> distinctKeys ps /\ Forall (fun kv => wellKeyed (snd kv)) ps.
Proof.
  unfold distinctKeys, keys. cbn [wellKeyed].
  enough (H : (fix each (l : list (string * JsValue)) : Prop :=
                 match l with
                 | [] => True
                 | (_, x) :: l' => wellKeyed x /\ each l'
                 end) ps
              <-> Forall (fun kv => wellKeyed (snd kv)) ps) by tauto.
  induction ps as [|[k x] ps IH].
  - split; [constructor|easy].
  - split.
    + intros [Hx Hps]. constructor; [exact Hx|now apply IH].
    + intro H. inversion H as [|? ? Hx Hps]; subst.
      split; [exact Hx|now apply IH].
Qed.

(** A value compares deep-equal to itself. *)
Lemma dequal_refl : forall v, wellKeyed v -> dequal v v = true.
Proof.
  induction v as [ | | b | n | x | f | ps IH] using JsValue_nested_ind;
    intro Hwk; cbn [dequal].
  - reflexivity.
  - reflexivity.
  - now destruct b.
  - apply Z.eqb_refl.
  - apply String.eqb_refl.
  - apply String.eqb_refl.
  - apply wellKeyed_Object in Hwk. destruct Hwk as [Hnd Hall].
    apply andb_true_intro. split.
    + enough (Hev : forall l,
                 (forall kv, In kv l -> In kv ps) ->
                 Forall (fun kv => wellKeyed (snd kv) ->
                                   dequal (snd kv) (snd kv) = true) l ->
                 Forall (fun kv => wellKeyed (snd kv)) l ->
                 (fix every (l : list (string * JsValue)) : bool :=
                    match l with
                    | [] => true
                    | (k, v) :: l' =>
                        match lookup k ps with
                        | Some w => dequal v w
                        | None => false
                        end && every l'
                    end) l = true)
        by (apply Hev; auto).
      clear IH Hall.
      induction l as [|[k x] l IHl]; intros Hin IH Hall; [reflexivity|].
      inversion IH as [|? ? Hx IHrest]; subst.
      inversion Hall as [|? ? Hwx Hrest]; subst.
      rewrite (In_lookup k x ps Hnd (Hin _ (or_introl eq_refl))).
      cbn [snd] in Hx, Hwx. rewrite (Hx Hwx). cbn [andb].
      apply IHl; [|assumption|assumption].
      intros kv H. apply Hin. now right.
    + unfold keys. rewrite length_map. apply Nat.eqb_refl.
Qed.

Lemma flat_map_none {A B : Type} (f : A -> list B) (l : list A) :
  (forall a, In a l -> f a = []) -> flat_map f l = [].
Proof.
  induction l as [|a l IH]; intro H; [reflexivity|].
  cbn [flat_map]. rewrite (H a (or_introl eq_refl)).
  apply IH. intros b Hb. apply H. now right.
Qed.

Lemma assign_held {V : Type} (k : string) (v : V) (o : list (string * V)) :
  lookup k o = Some v -> assign k v o = o.
Proof.
  induction o as [|[k' v'] o IH]; simpl; [discriminate|].
  destruct (String.eqb_spec k k') as [->|Hk]; [congruence|].
  intro H. now rewrite IH.
Qed.

Lemma difference_none (ds id : string) (r : obj) :
  wellKeyed (Object r) -> difference ds id r r = [].
Proof.
  intro Hwk. apply wellKeyed_Object in Hwk. destruct Hwk as [Hnd Hall].
  unfold difference. rewrite !flat_map_none; [reflexivity| |].
  - intros k Hk. unfold DatasetProxy.dropped.
    now rewrite (proj2 (has_own_In k r) Hk).
  - intros [k v] Hkv. unfold DatasetProxy.changed, prop. cbn [fst snd].
    rewrite (In_lookup k v r Hnd Hkv).
    rewrite Forall_forall in Hall.
    now rewrite (dequal_refl v (Hall _ Hkv)).
Qed.

Lemma wellKeyed_withId (id : string) (props : obj) :
  wellKeyed (Object props) -> wellKeyed (Object (withId id props)).
Proof.
  rewrite !wellKeyed_Object. intros [Hnd Hall].
  split; [now apply distinctKeys_withId|].
  unfold withId. destruct (lookup "id" props); [exact Hall|].
  rewrite Forall_forall in *. intros kv Hkv.
  apply In_assign in Hkv. destruct Hkv as [->|Hkv]; [exact I|auto].
Qed.

(** X15.  Only changes are sent.  Writing to a row the value the
    mirror already holds for it (the value with its [id]) calls [send]
    once with an empty batch and leaves the mirror as it is. *)
Theorem DatasetProxy_set_of_the_held_value_sends_nothing
  (ds id : string) (props : obj) (s : TheStore) :
  structured (Object props) ->
  wellKeyed (Object props) ->
  lookup "id" props = None \/ lookup "id" props = Some (Str id) ->
  rowAt (mem s) ds id = Some (withId id props) ->
  DatasetProxy.set ds id (Object props) s
  = (Ok true, mkStore (mem s) (sent s ++ [mkDispatch [] (mem s)])).
Proof.
  intros Hst Hwk Hid Hrow.
  rewrite set_structured by assumption.
  assert (Eex : existingRow ds id (mem s) = withId id props)
    by (unfold existingRow; now rewrite Hrow).
  rewrite Eex, difference_none by now apply wellKeyed_withId.
  unfold rowAt in Hrow. unfold vivified, datasetOf.
  destruct (lookup ds (mem s)) as [d|] eqn:Ed; [|discriminate].
  rewrite (assign_held id _ d Hrow). now rewrite assign_held by exact Ed.
Qed.

Lemma DatasetProxy_set_of_the_held_value_sends_nothing_witness :
  DatasetProxy.set "jedi" "yoda" yoda yodaStore
  = (Ok true,
     mkStore (mem yodaStore)
             (sent yodaStore ++ [mkDispatch [] (mem yodaStore)])).
Proof.
  apply (DatasetProxy_set_of_the_held_value_sends_nothing
           "jedi" "yoda" [("name", Str "yoda"); ("age", Number 942)]).
  - reflexivity.
  - simpl. repeat split; repeat constructor; simpl; intuition discriminate.
  - now left.
  - reflexivity.
Defined.

Lemma lookup_remove_other {V : Type} (k k' : string)
  (o : list (string * V)) :
  k <> k' -> lookup k' (remove k o) = lookup k' o.
Proof.
  intro Hne. induction o as [|[k0 v0] o IH]; [reflexivity|]. simpl.
  destruct (String.eqb_spec k k0) as [->|Hk]; simpl.
  - destruct (String.eqb_spec k' k0); [congruence|reflexivity].
  - now rewrite IH.
Qed.

Lemma lookup_remove_same {V : Type} (k : string) (o : list (string * V)) :
  distinctKeys o -> lookup k (remove k o) = None.
Proof.
  unfold distinctKeys.
  induction o as [|[k0 v0] o IH]; intro Hnd; [reflexivity|]. simpl.
  inversion Hnd as [|? ? Hk0 Ho]; subst.
  destruct (String.eqb_spec k k0) as [->|Hk]; simpl.
  - now apply lookup_None.
  - destruct (String.eqb_spec k k0); [congruence|now apply IH].
Qed.

Lemma RowProxy_deleteProperty_mem (ds id p : string) (s : TheStore) :
  mem (snd (RowProxy.deleteProperty ds id p s))
  = match rowAt (mem s) ds id with
    | Some r =>
        assign ds (assign id (remove p r) (datasetOf ds (mem s))) (mem s)
    | None => mem s
    end.
Proof.
  unfold RowProxy.deleteProperty, rowAt, datasetOf. cbn [snd send mem].
  unfold Mem, Dataset, obj in *.
  match goal with
  | |- context [@lookup ?T ds (mem s)] =>
      destruct (@lookup T ds (mem s)) as [d|]; [|reflexivity]
  end.
  now destruct (lookup id d).
Qed.

Lemma RowProxy_deleteProperty_sent (ds id p : string) (s : TheStore) :
  sent (snd (RowProxy.deleteProperty ds id p s))
  = sent s ++ [mkDispatch [mkOutgoing ds id p Undefined] (mem s)].
Proof.
  unfold RowProxy.deleteProperty. cbn [snd send mem].
  unfold Mem, Dataset, obj in *.
  match goal with
  | |- context [@lookup ?T ds (mem s)] =>
      destruct (@lookup T ds (mem s)) as [d|]; [|reflexivity]
  end.
  now destruct (lookup id d).
Qed.



Lemma has_own_assign {V : Type} (k k' : string) (v : V)
  (o : list (string * V)) :
  has_own k' (assign k v o) = String.eqb k k' || has_own k' o.
Proof.
  unfold has_own.
  destruct (String.eqb_spec k k') as [->|Hne]; cbn [orb].
  - now rewrite lookup_assign_same.
  - now rewrite lookup_assign_other.
Qed.

Lemma has_own_vivified (ds ds' : string) (m : Mem) :
  has_own ds' (vivified ds m) = String.eqb ds ds' || has_own ds' m.
Proof.
  unfold vivified. destruct (lookup ds m) as [d|] eqn:E.
  - destruct (String.eqb_spec ds ds') as [<-|Hne]; [|reflexivity].
    unfold has_own. now rewrite E.
  - apply has_own_assign.
Qed.


Lemma distinctKeys_filter {V : Type} (keep : string * V -> bool)
  (o : list (string * V)) :
  distinctKeys o -> distinctKeys (filter keep o).
Proof.
  unfold distinctKeys, keys.
  induction o as [|kv o IH]; intro Hnd; [constructor|].
  inversion Hnd as [|? ? Hk Ho]; subst. simpl.
  destruct (keep kv); [|now apply IH].
  simpl. constructor; [|now apply IH].
  intro Hin. apply Hk. apply in_map_iff in Hin.
  destruct Hin as [kv' [E Hin']]. apply filter_In in Hin'.
  rewrite <- E. apply in_map. tauto.
Qed.




Lemma lookup_withId (id p : string) (v : JsValue) (props : obj) :
  lookup p props = Some v -> lookup p (withId id props) = Some v.
Proof.
  intro H. unfold withId. destruct (lookup "id" props) eqn:E; [exact H|].
  rewrite lookup_assign_other; [exact H|]. congruence.
Qed.



End AccessorMore.

(** * Further properties of the adapter's set-up *)

Section SetUp.
Import LocalIndexedDB.

Lemma unsubscribe_app {World : Type} (cb : Callback World)
  (a b : list (Callback World)) :
  unsubscribe cb (a ++ b) = unsubscribe cb a ++ unsubscribe cb b.
Proof. apply filter_app. Qed.

Lemma unsubscribe_self {World : Type} (cb : Callback World) :
  unsubscribe cb [cb] = [].
Proof. unfold unsubscribe. simpl. now rewrite Nat.eqb_refl. Qed.

(** X21.  Unsubscribing.  The function [listenChanges(cb)] returns
    takes out of the listeners every registration of [cb], however
    often it was registered, and no other; the listeners that stay keep
    their order; calling it again changes nothing. *)
Theorem unsubscribe_takes_out_every_registration (World : Type)
  (cb other : Callback World) (changeListeners : list (Callback World)) :
  (forall e,
      In e (unsubscribe cb changeListeners)
      <-> In e changeListeners /\ identity e <> identity cb)
  /\ unsubscribe cb (subscribe cb (subscribe cb changeListeners))
     = unsubscribe cb changeListeners
  /\ unsubscribe cb (unsubscribe cb changeListeners)
     = unsubscribe cb changeListeners
  /\ (identity other <> identity cb ->
      unsubscribe cb (subscribe other (subscribe cb changeListeners))
      = subscribe other (unsubscribe cb changeListeners)).
Proof.
  split; [|split; [|split]].
  - intro e. unfold unsubscribe. rewrite filter_In, negb_true_iff.
    now rewrite Nat.eqb_neq.
  - unfold subscribe.
    now rewrite !unsubscribe_app, unsubscribe_self, !app_nil_r.
  - unfold unsubscribe.
    induction changeListeners as [|e l IH]; [reflexivity|]. simpl.
    destruct (negb (Nat.eqb (identity e) (identity cb))) eqn:E; simpl;
      [rewrite E; now f_equal|exact IH].
  - intro Hne. unfold subscribe.
    rewrite !unsubscribe_app, unsubscribe_self, app_nil_r.
    f_equal. unfold unsubscribe. simpl.
    apply Nat.eqb_neq in Hne. now rewrite Hne.
Qed.

Lemma unsubscribe_takes_out_every_registration_witness :
  unsubscribe (mkCallback 1 (@syncDatasetMem))
    (subscribe (mkCallback 2 (fun _ m => m))
       (subscribe (mkCallback 1 (@syncDatasetMem)) []))
  = subscribe (mkCallback 2 (fun _ m => m))
      (unsubscribe (mkCallback 1 (@syncDatasetMem)) []).
Proof.
  apply (unsubscribe_takes_out_every_registration Mem
           (mkCallback 1 (@syncDatasetMem)) (mkCallback 2 (fun _ m => m)) []).
  simpl. lia.
Defined.

Lemma lookup_app_one {V : Type} (k k' : string) (v : V)
  (o : list (string * V)) :
  lookup k (o ++ [(k', v)])
  = match lookup k o with
    | Some w => Some w
    | None => if String.eqb k k' then Some v else None
    end.
Proof.
  induction o as [|[k0 v0] o IH]; simpl; [reflexivity|].
  now destruct (String.eqb k k0).
Qed.

Lemma ensured_lookup (name : string) (keyPath : option string) (db : Schema)
  (n : string) :
  lookup n (ensured name keyPath db)
  = match lookup n db with
    | Some kp => Some kp
    | None => if String.eqb n name then Some keyPath else None
    end.
Proof.
  unfold ensured, contains, has_own.
  destruct (lookup name db) as [kp|] eqn:E.
  - destruct (lookup n db) eqn:En; [reflexivity|].
    destruct (String.eqb_spec n name) as [->|Hne]; [congruence|reflexivity].
  - apply lookup_app_one.
Qed.

Lemma upgradeDB_ensures (internalPrefix : string) (db : Schema) :
  upgradeDB internalPrefix db
  = Some (ensured (internalPrefix ++ "message_meta") None
            (ensured (internalPrefix ++ "message_latest") None
               (ensured (internalPrefix ++ "message_log") (Some "timestamp")
                  db))).
Proof.
  unfold upgradeDB, createObjectStore, ensured. cbn [fold_left].
  destruct (contains (internalPrefix ++ "message_log") db) eqn:E1;
    cbn [negb]; rewrite ?E1;
    match goal with
    | |- context [contains (internalPrefix ++ "message_latest") ?d] =>
        destruct (contains (internalPrefix ++ "message_latest") d) eqn:E2
    end; cbn [negb]; rewrite ?E2;
    match goal with
    | |- context [contains (internalPrefix ++ "message_meta") ?d] =>
        destruct (contains (internalPrefix ++ "message_meta") d) eqn:E3
    end; cbn [negb]; rewrite ?E3; reflexivity.
Qed.

Lemma prefix_cancel (a x y : string) :
  (a ++ x)%string = (a ++ y)%string -> x = y.
Proof. induction a as [|c a IH]; simpl; [auto|]. intro H. injection H. auto. Qed.

(** X22.  [upgradeDB] never runs into a store that is there: whatever
    stores the database has and whatever the prefix, it returns, and
    afterwards the database has the three stores of the adapter.  A
    store it found is left as it was, key path and all; a store it had
    to make has the key path [timestamp] for the log and none for the
    other two; and a second run changes nothing. *)
Theorem upgradeDB_makes_what_is_missing (internalPrefix : string)
  (db : Schema) :
  exists db',
    upgradeDB internalPrefix db = Some db'
    /\ (forall n kp, lookup n db = Some kp -> lookup n db' = Some kp)
    /\ (forall n,
           contains n db'
           = contains n db
             || String.eqb n (internalPrefix ++ "message_log")
             || String.eqb n (internalPrefix ++ "message_latest")
             || String.eqb n (internalPrefix ++ "message_meta"))
    /\ (contains (internalPrefix ++ "message_log") db = false ->
        lookup (internalPrefix ++ "message_log") db' = Some (Some "timestamp"))
    /\ (contains (internalPrefix ++ "message_latest") db = false ->
        lookup (internalPrefix ++ "message_latest") db' = Some None)
    /\ (contains (internalPrefix ++ "message_meta") db = false ->
        lookup (internalPrefix ++ "message_meta") db' = Some None)
    /\ upgradeDB internalPrefix db' = Some db'.
Proof.
  eexists. split; [apply upgradeDB_ensures|].
  assert (Hll : String.eqb (internalPrefix ++ "message_latest")
                           (internalPrefix ++ "message_log") = false).
  { apply String.eqb_neq. intro H. apply prefix_cancel in H. discriminate. }
  assert (Hml : String.eqb (internalPrefix ++ "message_meta")
                           (internalPrefix ++ "message_log") = false).
  { apply String.eqb_neq. intro H. apply prefix_cancel in H. discriminate. }
  assert (Hmt : String.eqb (internalPrefix ++ "message_meta")
                           (internalPrefix ++ "message_latest") = false).
  { apply String.eqb_neq. intro H. apply prefix_cancel in H. discriminate. }
  split; [|split; [|split; [|split; [|split]]]].
  - intros n kp H. now rewrite !ensured_lookup, H.
  - intro n. unfold contains, has_own. rewrite !ensured_lookup.
    destruct (lookup n db); [reflexivity|]. cbn [orb].
    destruct (String.eqb n (internalPrefix ++ "message_log")); [reflexivity|].
    destruct (String.eqb n (internalPrefix ++ "message_latest"));
      [reflexivity|].
    now destruct (String.eqb n (internalPrefix ++ "message_meta")).
  - unfold contains, has_own. intro H. rewrite !ensured_lookup.
    destruct (lookup (internalPrefix ++ "message_log") db); [discriminate|].
    now rewrite String.eqb_refl.
  - unfold contains, has_own. intro H. rewrite !ensured_lookup.
    destruct (lookup (internalPrefix ++ "message_latest") db);
      [discriminate|].
    now rewrite Hll, String.eqb_refl.
  - unfold contains, has_own. intro H. rewrite !ensured_lookup.
    destruct (lookup (internalPrefix ++ "message_meta") db); [discriminate|].
    now rewrite Hml, Hmt, String.eqb_refl.
  - rewrite upgradeDB_ensures. f_equal.
    set (db1 := ensured (internalPrefix ++ "message_log") _ db).
    set (db2 := ensured (internalPrefix ++ "message_latest") _ db1).
    set (db3 := ensured (internalPrefix ++ "message_meta") _ db2).
    assert (H1 : contains (internalPrefix ++ "message_log") db3 = true).
    { unfold contains, has_own, db3, db2, db1. rewrite !ensured_lookup.
      destruct (lookup (internalPrefix ++ "message_log") db); [reflexivity|].
      now rewrite String.eqb_refl. }
    assert (H2 : contains (internalPrefix ++ "message_latest") db3 = true).
    { unfold contains, has_own, db3, db2, db1. rewrite !ensured_lookup.
      destruct (lookup (internalPrefix ++ "message_latest") db);
        [reflexivity|].
      now rewrite Hll, String.eqb_refl. }
    assert (H3 : contains (internalPrefix ++ "message_meta") db3 = true).
    { unfold contains, has_own, db3, db2, db1. rewrite !ensured_lookup.
      destruct (lookup (internalPrefix ++ "message_meta") db); [reflexivity|].
      now rewrite Hml, Hmt, String.eqb_refl. }
    unfold ensured at 3. rewrite H1.
    unfold ensured at 2. rewrite H2.
    unfold ensured at 1. now rewrite H3.
Qed.

End SetUp.

(** * From the latest-message store to the mirror *)

Section Reload.
Import LocalIndexedDB.

Lemma get_above {V : Type} (k : string) (s : objectStore V) :
  Forall (fun r => cmp k (fst r) = Lt) s -> Idb.get k s = None.
Proof.
  induction s as [|[k' v] s IH]; intro H; [reflexivity|].
  inversion H as [|? ? Hk Hs]; subst. simpl in *.
  rewrite Hk. now apply IH.
Qed.

Lemma cell_key (d r c : string) (m : Message) :
  colonFree d = true ->
  colonFree r = true ->
  colonFree (dataset m) = true ->
  colonFree (row m) = true ->
  (d ++ ":" ++ r ++ ":" ++ c)%string = latestMessageKey m ->
  sameCell d r c m = true.
Proof.
  intros Hd Hr Hdm Hrm E. unfold latestMessageKey in E.
  apply colon_splits in E; [|assumption|assumption].
  destruct E as [E1 E].
  apply colon_splits in E; [|assumption|assumption].
  destruct E as [E2 E3].
  unfold sameCell. now rewrite <- E1, <- E2, <- E3, !String.eqb_refl.
Qed.

Lemma key_cell (d r c : string) (m : Message) :
  sameCell d r c m = true ->
  (d ++ ":" ++ r ++ ":" ++ c)%string = latestMessageKey m.
Proof.
  unfold sameCell, latestMessageKey. intro H.
  apply andb_prop in H. destruct H as [H Hc].
  apply andb_prop in H. destruct H as [Hd Hr].
  apply String.eqb_eq in Hd, Hr, Hc. now subst.
Qed.

(** Among the entries of the latest-message store the one for a cell is
    the one under the cell's key. *)
Lemma lastFor_latest (d r c : string) (latest : objectStore Message) :
  colonFree d = true ->
  colonFree r = true ->
  latestShape latest ->
  lastFor d r c (Idb.getAll latest)
  = option_map value (Idb.get (d ++ ":" ++ r ++ ":" ++ c) latest).
Proof.
  intros Hd Hr [Hasc Hkeys].
  induction latest as [|[k m] rest IH]; [reflexivity|].
  destruct Hasc as [Hk Hrest].
  inversion Hkeys as [|? ? Hm Hkeys']; subst.
  cbn [fst snd] in Hm. destruct Hm as (-> & Hdm & Hrm).
  change (Idb.getAll ((latestMessageKey m, m) :: rest))
    with (m :: Idb.getAll rest).
  cbn [lastFor Idb.get]. rewrite (IH Hrest Hkeys').
  destruct (sameCell d r c m) eqn:Ecell.
  - rewrite (key_cell d r c m Ecell), cmp_refl.
    now rewrite (get_above _ rest Hk).
  - destruct (cmp (d ++ ":" ++ r ++ ":" ++ c) (latestMessageKey m)) eqn:Ecmp;
      try now destruct (Idb.get (d ++ ":" ++ r ++ ":" ++ c) rest).
    apply cmp_eq in Ecmp.
    rewrite (cell_key d r c m) in Ecell by assumption. discriminate.
Qed.


Lemma latestShape_put (m : Message) (latest : objectStore Message) :
  colonFree (dataset m) = true ->
  colonFree (row m) = true ->
  latestShape latest ->
  latestShape (Idb.put (latestMessageKey m) m latest).
Proof.
  intros Hdm Hrm [Hasc Hkeys]. split; [now apply ascending_put|].
  apply Forall_forall. intros e He.
  apply In_put in He. destruct He as [->|He]; [now repeat split|].
  rewrite Forall_forall in Hkeys. auto.
Qed.

Lemma latestShape_putLatests (ws : list Message) :
  forall db,
    Forall (fun m => colonFree (dataset m) = true
                     /\ colonFree (row m) = true) ws ->
    latestShape (message_latest db) ->
    latestShape (message_latest (Batch.putLatests ws db)).
Proof.
  induction ws as [|w ws IH]; intros db Hws H; [exact H|].
  inversion Hws as [|? ? [Hd Hr] Hrest]; subst.
  cbn [Batch.putLatests fold_left]. apply IH; [exact Hrest|].
  simpl. now apply latestShape_put.
Qed.




End Reload.

(** * What a write leaves alone *)

Section Frame.

Lemma set_taken_or_refused (ds id : string) (val : JsValue) (s : TheStore) :
  (exists props,
      val = Object props
      /\ structured val
      /\ (lookup "id" props = None \/ lookup "id" props = Some (Str id)))
  \/ snd (DatasetProxy.set ds id val s) = s.
Proof.
  destruct val as [ | | b | n | x | f | props]; try (right; reflexivity).
  destruct (structuredClone (Object props)) as [c|] eqn:E.
  - assert (c = Object props) by now apply structuredClone_same.
    subst c.
    destruct (lookup "id" props) as [valueID|] eqn:Eid.
    + assert (Hdec : valueID = Str id \/ valueID <> Str id).
      { destruct valueID as [ | | b | n | x | f | ps];
          try (right; discriminate).
        destruct (string_dec x id) as [->|Hx];
          [now left|right; congruence]. }
      destruct Hdec as [->|Hne].
      * left. exists props. repeat split; [exact E|now right].
      * right. now rewrite (set_id_mismatch ds id props valueID).
    + left. exists props. repeat split; [exact E|now left].
  - right. now rewrite set_not_cloned.
Qed.



End Frame.
